(** * BiliOCR: streaming reconcilers, translation dispatcher, display rings

    A shallow embedding of the parts of [streaming_reconciler.py] and
    [app.py] that decide when recognised text is committed, how frames are
    merged, how translations are cached and validated, and how the
    deduplication windows are bounded.

    Modelling conventions
    - A Python [str] is the list of its Unicode code points ([list N]), so
      [len], slicing and indexing count code points as Python does.
    - [time.time()] is an explicit argument [now] of every operation that
      reads the clock.  Clock readings and their differences are exact
      rationals [Q]: time is idealised, rounding of clock arithmetic is
      not modelled.
    - A float quotient of two lengths compared with a decimal constant
      ([len(new) / len(old) >= 0.6], [ratio() >= 0.5], [overlap >= 0.65])
      is modelled by the exact quotient in [Q]: division is correctly
      rounded, so the quotient and the constant round to the same double
      when they are equal, and two different fractions with denominators
      below 2^50 are further apart than one rounding step.  The same holds
      for [cnt >= len(tokens) * 0.3], where the double 0.3 lies below
      3/10.
    - A length multiplied by a float and compared strictly
      ([len(new) > len(old) * 0.7]) does depend on rounding (90 * 0.7 is
      62.99999999999999); these products are computed in binary64 with
      Rocq's primitive floats ([len_gt_scaled]).
    - [debug] printing has no effect on state or results and is left out. *)

From Stdlib Require Import QArith Lqa.
From Stdlib Require Import Floats.
From Stdlib Require Import Strings.String Strings.Ascii.
From stdpp Require Import base option list gmap.

Local Open Scope nat_scope.

(** ** Python strings *)
Module Py.

Abbreviation str := (list N).

(** ASCII literal to code points. *)
Fixpoint lit (s : string) : str :=
  match s with
  | EmptyString => []
  | String c s' => N_of_ascii c :: lit s'
  end.

(** Truthiness of a [str]: non-empty. *)
Definition truthy (s : str) : bool :=
  match s with [] => false | _ => true end.

(** Truthiness of an optional float: neither [None] nor [0.0]. *)
Definition truthy_time (t : option Q) : bool :=
  match t with None => false | Some x => negb (Qeq_bool x 0) end.

(** [str.isspace] on one code point (Py_UNICODE_ISSPACE); the regular
    expression class [\s] on [str] patterns is the same set. *)
Definition isspace (c : N) : bool :=
  ((9 <=? c) && (c <=? 13) || (28 <=? c) && (c <=? 32) || (c =? 133)
   || (c =? 160) || (c =? 5760) || (8192 <=? c) && (c <=? 8202)
   || (c =? 8232) || (c =? 8233) || (c =? 8239) || (c =? 8287)
   || (c =? 12288))%N.

Fixpoint lstrip (s : str) : str :=
  match s with
  | c :: s' => if isspace c then lstrip s' else s
  | [] => []
  end.

Definition rstrip (s : str) : str := reverse (lstrip (reverse s)).

(** [s.strip()] *)
Definition strip (s : str) : str := rstrip (lstrip s).

(** [s.startswith(p)] *)
Fixpoint startswith (s p : str) {struct p} : bool :=
  match p, s with
  | [], _ => true
  | c :: p', d :: s' => (c =? d)%N && startswith s' p'
  | _ :: _, [] => false
  end.

(** [p in s] for strings: [p] occurs as a contiguous substring of [s]. *)
Fixpoint contains (s p : str) : bool :=
  startswith s p ||
  match s with
  | [] => false
  | _ :: s' => contains s' p
  end.

(** Number of positions of [s] at which [p] occurs. *)
Fixpoint occurrences (p s : str) : nat :=
  (if startswith s p then 1 else 0)
  + match s with
    | [] => 0
    | _ :: s' => occurrences p s'
    end.

(** [s[-i:]] for [i >= 1] (the whole of [s] when [i >= len(s)]);
    [s[-0:]] is [s[0:]], the whole string. *)
Definition last_n (i : nat) (s : str) : str :=
  if i =? 0 then s else drop (length s - i) s.

(** Whitespace-only strings (the empty string included). *)
Definition blank (s : str) : Prop := Forall (fun c => isspace c = true) s.

(** [a == b] on strings. *)
Definition eqb (a b : str) : bool := bool_decide (a = b).

(** Float comparisons on the rational model. *)
Definition Qgeb (x y : Q) : bool := Qle_bool y x.
Definition Qgtb (x y : Q) : bool := negb (Qle_bool x y).
Definition Qltb (x y : Q) : bool := negb (Qle_bool y x).

(** [len(s)] as an operand of an exact quotient. *)
Definition flen (s : str) : Q := inject_Z (Z.of_nat (length s)).

(** A length as a binary64 float (exact below 2^53). *)
Definition float_of_len (n : nat) : float :=
  PrimFloat.of_uint63 (Uint63.of_Z (Z.of_nat n)).

(** [len(x) > len(y) * c] for a float constant [c], in binary64. *)
Definition len_gt_scaled (x y : str) (c : float) : bool :=
  PrimFloat.ltb (PrimFloat.mul (float_of_len (length y)) c)
                (float_of_len (length x)).

(** The doubles nearest to 0.7 and 1.5. *)
Definition f0_7 : float := 0x1.6666666666666p-1%float.
Definition f1_5 : float := 0x1.8p+0%float.

(** Truthiness of a list: non-empty. *)
Definition truthy_items {A} (l : list A) : bool :=
  match l with [] => false | _ => true end.

(** [sep.join(parts)] *)
Fixpoint join (sep : str) (parts : list str) : str :=
  match parts with
  | [] => []
  | [x] => x
  | x :: rest => x ++ sep ++ join sep rest
  end.

(** [x or y] on an optional float: [x] when it is truthy, else [y]. *)
Definition time_or (x : option Q) (y : Q) : Q :=
  match x with
  | Some v => if Qeq_bool v 0 then y else v
  | None => y
  end.

End Py.

(** ** [difflib.SequenceMatcher(None, a, b, autojunk=False)]

    With no junk predicate and [autojunk=False] the junk and popular sets
    are empty: [b2j] maps every element of [b] to the ascending list of its
    positions, [isbjunk] is constantly false, and the two junk-extension
    loops of [find_longest_match] never run. *)
Module Difflib.
Import Py.

(** [Match(a, b, size)] *)
Record Match := mkMatch { m_a : nat; m_b : nat; m_size : nat }.

(** [b2j.get(c, [])]: positions of [c] in [b], ascending. *)
Fixpoint positions (c : N) (b : str) (j : nat) : list nat :=
  match b with
  | [] => []
  | d :: b' => if (c =? d)%N then j :: positions c b' (S j)
               else positions c b' (S j)
  end.

Definition b2j (b : str) (c : N) : list nat := positions c b 0.

(** [j2len.get(j-1, 0)]; for [j = 0] the key [-1] is never present. *)
Definition j2lenget (j2len : gmap nat nat) (j : nat) : nat :=
  match j with
  | O => 0
  | S j' => default 0 (j2len !! j')
  end.

(** The inner loop [for j in b2j.get(a[i], nothing)] with its [continue]
    and [break]; carries [(besti, bestj, bestsize)] and [newj2len]. *)
Fixpoint flm_inner (j2len : gmap nat nat) (i blo bhi : nat) (js : list nat)
    (best : Match) (newj2len : gmap nat nat) : Match * gmap nat nat :=
  match js with
  | [] => (best, newj2len)
  | j :: js' =>
      if j <? blo then flm_inner j2len i blo bhi js' best newj2len
      else if bhi <=? j then (best, newj2len)
      else
        let k := j2lenget j2len j + 1 in
        let newj2len' := <[j := k]> newj2len in
        let best' := if m_size best <? k
                     then mkMatch (i + 1 - k) (j + 1 - k) k else best in
        flm_inner j2len i blo bhi js' best' newj2len'
  end.

(** The outer loop [for i in range(alo, ahi)]. *)
Fixpoint flm_outer (a b : str) (blo bhi : nat) (rng : list nat)
    (best : Match) (j2len : gmap nat nat) : Match :=
  match rng with
  | [] => best
  | i :: rng' =>
      match a !! i with
      | Some c =>
          let '(best', newj2len) :=
            flm_inner j2len i blo bhi (b2j b c) best ∅ in
          flm_outer a b blo bhi rng' best' newj2len
      | None => best (* a[i] out of range: not reached for ahi <= len(a) *)
      end
  end.

(** [a[i] == b[j]] on positions inside both strings. *)
Definition same_at (a b : str) (i j : nat) : bool :=
  match a !! i, b !! j with
  | Some c, Some d => (c =? d)%N
  | _, _ => false
  end.

(** First extension loop: grow the block to the left. *)
Fixpoint extend_left (a b : str) (alo blo besti bestj bestsize : nat)
    {struct besti} : Match :=
  match besti, bestj with
  | S i', S j' =>
      if (alo <? besti) && (blo <? bestj) && same_at a b i' j'
      then extend_left a b alo blo i' j' (S bestsize)
      else mkMatch besti bestj bestsize
  | _, _ => mkMatch besti bestj bestsize
  end.

(** Second extension loop: grow the block to the right.  [n] counts the
    positions left before [ahi]; the loop test fails when it reaches 0. *)
Fixpoint extend_right (a b : str) (ahi bhi besti bestj bestsize n : nat)
    {struct n} : Match :=
  match n with
  | O => mkMatch besti bestj bestsize
  | S n' =>
      if (besti + bestsize <? ahi) && (bestj + bestsize <? bhi)
         && same_at a b (besti + bestsize) (bestj + bestsize)
      then extend_right a b ahi bhi besti bestj (S bestsize) n'
      else mkMatch besti bestj bestsize
  end.

(** [find_longest_match(alo, ahi, blo, bhi)] *)
Definition find_longest_match (a b : str) (alo ahi blo bhi : nat) : Match :=
  let best := flm_outer a b blo bhi (seq alo (ahi - alo))
                (mkMatch alo blo 0) ∅ in
  let l := extend_left a b alo blo (m_a best) (m_b best) (m_size best) in
  extend_right a b ahi bhi (m_a l) (m_b l) (m_size l)
    (ahi - (m_a l + m_size l)).

(** The [while queue:] loop of [get_matching_blocks].  The Python list
    [queue] is used as a stack ([pop()] takes the last element); here the
    head of the list is the top of the stack. *)
Fixpoint blocks_loop (fuel : nat) (a b : str)
    (queue : list (nat * nat * nat * nat)) (matching_blocks : list Match)
    : option (list Match) :=
  match queue with
  | [] => Some matching_blocks
  | (alo, ahi, blo, bhi) :: queue' =>
      match fuel with
      | O => None
      | S fuel' =>
          let x := find_longest_match a b alo ahi blo bhi in
          let i := m_a x in let j := m_b x in let k := m_size x in
          if k =? 0 then blocks_loop fuel' a b queue' matching_blocks
          else
            let q1 := if (alo <? i) && (blo <? j)
                      then (alo, i, blo, j) :: queue' else queue' in
            let q2 := if (i + k <? ahi) && (j + k <? bhi)
                      then (i + k, ahi, j + k, bhi) :: q1 else q1 in
            blocks_loop fuel' a b q2 (matching_blocks ++ [x])
      end
  end.

(** Blocks found by the loop of [get_matching_blocks] on the whole of [a]
    and [b], started with [queue = [(0, la, 0, lb)]].  Every iteration
    removes one range and adds at most two strictly narrower ones, so
    [2 * la + 1] iterations always suffice ([blocks_loop_terminates]). *)
Definition blocks_fuel (a : str) : nat := 2 * length a + 1.

Definition found_blocks (a b : str) : list Match :=
  default [] (blocks_loop (blocks_fuel a) a b [(0, length a, 0, length b)] []).

(** [sum(triple[-1] for triple in self.get_matching_blocks())].  Sorting
    the blocks, collapsing adjacent ones (their sizes are added) and
    appending the dummy block of size 0 leave this sum unchanged. *)
Definition matches (a b : str) : nat :=
  foldr (fun x acc => m_size x + acc) 0 (found_blocks a b).

(** [_calculate_ratio(matches, length)] *)
Definition calculate_ratio (matches length : nat) : Q :=
  if length =? 0 then 1
  else (2 * inject_Z (Z.of_nat matches) / inject_Z (Z.of_nat length))%Q.

(** [SequenceMatcher(None, a, b, autojunk=False).ratio()] *)
Definition ratio (a b : str) : Q :=
  calculate_ratio (matches a b) (length a + length b).

(** Invariants of the loops, used to show that the fuel suffices. *)

(** Every length recorded in a row of [j2len] is at most [n]. *)
Definition row_le (m : gmap nat nat) (n : nat) : Prop :=
  forall j v, m !! j = Some v -> v <= n.

(** The block [x] lies inside [a[alo:hi]]. *)
Definition block_in (alo hi : nat) (x : Match) : Prop :=
  alo <= m_a x /\ m_a x + m_size x <= hi.

(** Work left in the queue: a range of width [w] costs [2 * w + 1]. *)
Definition queue_weight (q : list (nat * nat * nat * nat)) : nat :=
  foldr (fun '(alo, ahi, _, _) acc => 2 * (ahi - alo) + 1 + acc) 0 q.

Definition queue_ok (q : list (nat * nat * nat * nat)) : Prop :=
  Forall (fun '(alo, ahi, _, _) => alo <= ahi) q.





End Difflib.

(** ** [StreamingReconciler] (machine-translation variant) *)
Module Reconciler.
Import Py.

Record t := mk {
  stability_threshold : Q;
  stable_buffer : list str;
  unstable_buffer : str;
  last_unstable : str;
  last_change_time : Q;
  stability_start_time : option Q;
  unstable_buffer_start_time : option Q;
  translated_stable : list str
}.

(** [StreamingReconciler(stability_threshold)] created at clock [now]. *)
Definition init (threshold now : Q) : t :=
  mk threshold [] [] [] now None None [].

Definition set_unstable_buffer (v : str) (s : t) : t :=
  mk (stability_threshold s) (stable_buffer s) v (last_unstable s)
     (last_change_time s) (stability_start_time s)
     (unstable_buffer_start_time s) (translated_stable s).

Definition set_last_unstable (v : str) (s : t) : t :=
  mk (stability_threshold s) (stable_buffer s) (unstable_buffer s) v
     (last_change_time s) (stability_start_time s)
     (unstable_buffer_start_time s) (translated_stable s).

Definition set_last_change_time (v : Q) (s : t) : t :=
  mk (stability_threshold s) (stable_buffer s) (unstable_buffer s)
     (last_unstable s) v (stability_start_time s)
     (unstable_buffer_start_time s) (translated_stable s).

Definition set_stability_start_time (v : option Q) (s : t) : t :=
  mk (stability_threshold s) (stable_buffer s) (unstable_buffer s)
     (last_unstable s) (last_change_time s) v
     (unstable_buffer_start_time s) (translated_stable s).

Definition set_unstable_buffer_start_time (v : option Q) (s : t) : t :=
  mk (stability_threshold s) (stable_buffer s) (unstable_buffer s)
     (last_unstable s) (last_change_time s) (stability_start_time s)
     v (translated_stable s).

Definition set_stable_buffer (v : list str) (s : t) : t :=
  mk (stability_threshold s) v (unstable_buffer s)
     (last_unstable s) (last_change_time s) (stability_start_time s)
     (unstable_buffer_start_time s) (translated_stable s).

(** The boundary-overlap scan
    [for i in range(max_check, min_overlap - 1, -1)]: [i] runs downwards
    from [max_check] to [min_overlap]; [n] is the number of values left. *)
Fixpoint overlap_scan (old new : str) (min_overlap i n : nat) : option str :=
  match n with
  | O => None
  | S n' =>
      if i <? min_overlap then None
      else if eqb (last_n i old) (take i new) then Some (old ++ drop i new)
      else overlap_scan old new min_overlap (i - 1) n'
  end.

(** [_merge_with_overlap(old, new)] *)
Definition merge_with_overlap (old new : str) : str :=
  if negb (truthy old) then new
  else
    let len_ratio := (flen new / inject_Z (Z.of_nat (max 1 (length old))))%Q in
    if Qle_bool (6 # 10) len_ratio && Qle_bool len_ratio (15 # 10)
       && Qgeb (Difflib.ratio old new) (5 # 10)
    then new
    else if startswith new old then new
    else if contains new old then new
    else
      let min_overlap := 2 in
      let max_check := min (min (length old) (length new)) 20 in
      match overlap_scan old new min_overlap max_check
              (max_check + 1 - min_overlap) with
      | Some merged => merged
      | None =>
          let m := Difflib.find_longest_match old new
                     0 (length old) 0 (length new) in
          let overlap_start_old := Difflib.m_a m in
          let overlap_start_new := Difflib.m_b m in
          let size := Difflib.m_size m in
          if min_overlap <=? size then
            if overlap_start_old + size =? length old
            then old ++ drop (overlap_start_new + size) new
            else if (overlap_start_old =? 0) && (overlap_start_new =? 0)
            then new
            else take overlap_start_old old ++ new
          else if len_gt_scaled new old f0_7 then new
          else if len_gt_scaled old new f1_5 then old
          else new
      end.


(** Rule 5 of the merge: the boundary overlap found by the scan. *)
Definition boundary_overlap (old new : str) : option str :=
  let max_check := min (min (length old) (length new)) 20 in
  overlap_scan old new 2 max_check (max_check + 1 - 2).



(** [_commit_unstable()] *)
Definition commit_unstable (s : t) : t :=
  if truthy (unstable_buffer s) then
    let sb := stable_buffer s ++ [unstable_buffer s] in
    let sb := if 5 <? length sb then drop 1 sb else sb in
    set_unstable_buffer_start_time None
      (set_stability_start_time None
         (set_unstable_buffer [] (set_stable_buffer sb s)))
  else s.

(** The triple returned by [ingest]:
    [(should_translate, text_to_translate, is_final)]. *)
Definition outcome : Type := bool * option str * bool.

(** [ingest(new_text)] with [time.time()] read as [now]. *)
Definition ingest (now : Q) (new_text : str) (s : t) : outcome * t :=
  if negb (truthy new_text) || negb (truthy (strip new_text))
  then ((false, None, false), s)
  else
    let new_text := strip new_text in
    (* Case 1 / else branch; [inl] is an early [return] *)
    let step1 : (outcome * t) + t :=
      if eqb new_text (last_unstable s) then
        let s := match stability_start_time s with
                 | None => set_stability_start_time (Some now) s
                 | Some _ => s
                 end in
        let elapsed_stable :=
          (now - default 0 (stability_start_time s))%Q in
        if Qgeb elapsed_stable (stability_threshold s) then
          let s := if negb (eqb (unstable_buffer s) new_text)
                   then set_unstable_buffer new_text s else s in
          let text_to_commit := unstable_buffer s in
          inl ((true, Some text_to_commit, true), commit_unstable s)
        else inr s
      else
        let was_empty := negb (truthy (unstable_buffer s)) in
        let s := set_unstable_buffer
                   (merge_with_overlap (unstable_buffer s) new_text) s in
        let s := set_last_change_time now s in
        let s := set_stability_start_time None s in
        let s := if was_empty && truthy (unstable_buffer s)
                 then set_unstable_buffer_start_time (Some now) s else s in
        inr s
    in
    match step1 with
    | inl r => r
    | inr s =>
        let s := set_last_unstable new_text s in
        (* Timeout *)
        let max_wait_time := (stability_threshold s * 2)%Q in
        let timeout :=
          truthy (unstable_buffer s)
          && truthy_time (unstable_buffer_start_time s)
          && Qgeb (now - default 0 (unstable_buffer_start_time s))%Q
                  max_wait_time in
        if timeout then
          ((true, Some (unstable_buffer s), true), commit_unstable s)
        else
          (* Early commit *)
          let early :=
            truthy (unstable_buffer s) && eqb new_text (last_unstable s)
            && truthy_time (stability_start_time s)
            && (let elapsed_stable :=
                  (now - default 0 (stability_start_time s))%Q in
                Qgeb elapsed_stable (2 # 10)
                && (6 <=? length (unstable_buffer s))
                && Qgeb elapsed_stable (stability_threshold s)) in
          if early then
            ((true, Some (unstable_buffer s), true), commit_unstable s)
          else ((false, None, false), s)
    end.

(** A stream of frames, each with the clock reading at its [ingest];
    returns the outcome of every call and the final state. *)
Fixpoint ingest_all (frames : list (Q * str)) (s : t) : list outcome * t :=
  match frames with
  | [] => ([], s)
  | (now, text) :: frames' =>
      let '(o, s) := ingest now text s in
      let '(os, s) := ingest_all frames' s in
      (o :: os, s)
  end.

(** Spec scenario 1, "progressive reveal": the frames 你, 你好, 你好世界,
    你好世界 at 0, 0.05, 0.10 and 0.30 s after the clock reading [T0]. *)
Definition ni : str := [20320]%N.
Definition ni_hao : str := [20320; 22909]%N.
Definition ni_hao_shi_jie : str := [20320; 22909; 19990; 30028]%N.

Definition progressive_reveal (T0 : Q) : list (Q * str) :=
  [(T0, ni); (T0 + (5 # 100), ni_hao); (T0 + (10 # 100), ni_hao_shi_jie);
   (T0 + (30 # 100), ni_hao_shi_jie)]%Q.

(** The outcome of a call that commits nothing. *)
Definition quiet : outcome := (false, None, false).

(** A reconciler with [stability_threshold = 0.2] and nothing committed
    yet. *)
Definition at_0_2 (unstable last : str) (changed : Q)
    (stability_start buffer_start : option Q) : t :=
  mk (2 # 10) [] unstable last changed stability_start buffer_start [].

(** [get_current_text()] *)
Definition get_current_text (s : t) : str :=
  let stable_text := if truthy_items (stable_buffer s)
                     then join (lit " ") (stable_buffer s) else [] in
  if truthy stable_text && truthy (unstable_buffer s)
  then stable_text ++ lit " " ++ unstable_buffer s
  else if truthy (unstable_buffer s) then unstable_buffer s
  else stable_text.

(** [reset()] with [time.time()] read as [now]. *)
Definition reset (now : Q) (s : t) : t :=
  mk (stability_threshold s) [] [] [] now None None [].

(** The stable buffer holds at most 5 units, none of them empty. *)
Definition stable_ok (s : t) : Prop :=
  length (stable_buffer s) <= 5
  /\ Forall (fun x => x <> []) (stable_buffer s).

(** The state after a stream of frames. *)
Definition after (frames : list (Q * str)) (s : t) : t :=
  (ingest_all frames s).2.

(** Appending a unit to the stable buffer, which keeps the last 5. *)
Definition pushed (buf : list str) (x : str) : list str :=
  let sb := buf ++ [x] in if 5 <? length sb then drop 1 sb else sb.

End Reconciler.

(** ** [LLMReconciler]: the merge step *)
Module LLMReconciler.
Import Py.

(** The boundary-overlap scan
    [for i in range(min(len(old), len(new), 25), 1, -1)]: [i] runs
    downwards to 2; [n] is the number of values left. *)
Fixpoint overlap_scan (old new : str) (i n : nat) : option str :=
  match n with
  | O => None
  | S n' =>
      if i <=? 1 then None
      else if eqb (last_n i old) (take i new) then Some (old ++ drop i new)
      else overlap_scan old new (i - 1) n'
  end.

(** [_merge(new_text)] on [self.buffer = buffer]. *)
Definition merge (buffer new_text : str) : str :=
  if negb (truthy buffer) then new_text
  else
    let old := buffer in
    let new := new_text in
    let len_ratio := (flen new / inject_Z (Z.of_nat (max 1 (length old))))%Q in
    if Qle_bool (6 # 10) len_ratio && Qle_bool len_ratio (15 # 10)
       && Qgeb (Difflib.ratio old new) (5 # 10)
    then new
    else if startswith new old then new
    else if contains new old then new
    else
      let start := min (min (length old) (length new)) 25 in
      match overlap_scan old new start (start - 1) with
      | Some merged => merged
      | None =>
          let m := Difflib.find_longest_match old new
                     0 (length old) 0 (length new) in
          if (2 <=? Difflib.m_size m)
             && (Difflib.m_a m + Difflib.m_size m =? length old)
          then old ++ drop (Difflib.m_b m + Difflib.m_size m) new
          else if len_gt_scaled new old f0_7 then new
          else old ++ lit " " ++ new
      end.


Record t := mk {
  stability_threshold : Q;
  max_buffer_time : Q;
  buffer : str;
  last_frame : str;
  stability_start : option Q;
  buffer_start_time : option Q
}.

(** [LLMReconciler(stability_threshold, max_buffer_time)] *)
Definition init (threshold max_time : Q) : t :=
  mk threshold max_time [] [] None None.

Definition outcome : Type := bool * option str * bool.

(** [ingest(new_text)] with [time.time()] read as [now]. *)
Definition ingest (now : Q) (new_text : str) (s : t) : outcome * t :=
  if negb (truthy new_text) || negb (truthy (strip new_text))
  then ((false, None, false), s)
  else
    let new_text := strip new_text in
    let merged := merge (buffer s) new_text in
    let start := if truthy merged && negb (truthy (buffer s))
                 then Some now else buffer_start_time s in
    let stab := if negb (eqb merged (buffer s))
                then Some now else stability_start s in
    let elapsed := (now - time_or stab now)%Q in
    if Qgeb elapsed (stability_threshold s) && truthy merged then
      ((true, Some (strip merged), true),
       mk (stability_threshold s) (max_buffer_time s) [] new_text None None)
    else if truthy merged && (2 <=? length (strip merged))
            && truthy_time start
            && Qgeb (now - default 0 start)%Q (max_buffer_time s)
            && eqb merged new_text then
      ((true, Some (strip merged), true),
       mk (stability_threshold s) (max_buffer_time s) [] new_text stab None)
    else
      ((false, None, false),
       mk (stability_threshold s) (max_buffer_time s) merged new_text
          stab start).

(** [reset()]: the buffer start time is not among the fields it clears. *)
Definition reset (s : t) : t :=
  mk (stability_threshold s) (max_buffer_time s) [] [] None
     (buffer_start_time s).

(** The buffer is empty or holds something other than whitespace. *)
Definition buffer_ok (s : t) : Prop := buffer s = [] \/ ~ blank (buffer s).

End LLMReconciler.

(** ** Regular-expression scans used by the word counters and the sanity
    check *)
Module Re.
Import Py.

(** [re.findall(r'[cls]+', s)] for a character class [cls]: the maximal
    runs of characters of the class.  [cur] is the run being read. *)
Fixpoint runs_from (cls : N -> bool) (cur s : str) : list str :=
  match s with
  | [] => match cur with [] => [] | _ => [cur] end
  | c :: s' =>
      if cls c then runs_from cls (cur ++ [c]) s'
      else match cur with
           | [] => runs_from cls [] s'
           | _ => cur :: runs_from cls [] s'
           end
  end.

Definition runs (cls : N -> bool) (s : str) : list str := runs_from cls [] s.

(** [re.findall(r'[cls]{2,8}', s)]: left to right, each match takes as
    many characters of the class as it can, at most 8, and needs 2. *)
Fixpoint runs_2_8_from (cls : N -> bool) (cur s : str) : list str :=
  match s with
  | [] => if 2 <=? length cur then [cur] else []
  | c :: s' =>
      if cls c then
        if length cur <? 8 then runs_2_8_from cls (cur ++ [c]) s'
        else cur :: runs_2_8_from cls [c] s'
      else if 2 <=? length cur then cur :: runs_2_8_from cls [] s'
      else runs_2_8_from cls [] s'
  end.

Definition runs_2_8 (cls : N -> bool) (s : str) : list str :=
  runs_2_8_from cls [] s.

(** A character class that contains no whitespace. *)
Definition spaceless (cls : N -> bool) : Prop :=
  forall c, isspace c = true -> cls c = false.

(** The class [[\u4e00-\u9fff\u3040-\u30ff\uac00-\ud7af]] *)
Definition is_cjk (c : N) : bool :=
  ((19968 <=? c) && (c <=? 40959) || (12352 <=? c) && (c <=? 12543)
   || (44032 <=? c) && (c <=? 55215))%N.

(** The class [[a-zA-Z]] *)
Definition is_latin (c : N) : bool :=
  ((97 <=? c) && (c <=? 122) || (65 <=? c) && (c <=? 90))%N.

(** The class [\S] *)
Definition is_nonspace (c : N) : bool := negb (isspace c).

(** Number of occurrences of [x] in [l]. *)
Definition count (x : str) (l : list str) : nat :=
  length (filter (fun y => y = x) l).

(** [Counter(l).most_common(1)[0][1]]: the largest number of occurrences
    of one element of [l] (0 for the empty list, where Python is not
    reached). *)
Definition most_common_count (l : list str) : nat :=
  foldr (fun x acc => max (count x l) acc) 0 l.

End Re.

(** [_count_words(text)] of [streaming_reconciler.py] *)
Definition count_words (text : Py.str) : nat :=
  if negb (Py.truthy text) || negb (Py.truthy (Py.strip text)) then 0
  else
    let cjk := length (filter (fun c => Re.is_cjk c = true) text) in
    let latin := length (Re.runs Re.is_latin text) in
    cjk + latin.

(** ** [AudioReconciler] *)
Module AudioReconciler.
Import Py.

Record t := mk {
  period_sec : Q;
  num_checks : Z;
  min_words : Z;
  buffer : str;
  period_start : option Q;
  check_count : Z
}.

(** [SENTENCE_ENDINGS = frozenset('.!?。！？')] *)
Definition SENTENCE_ENDINGS : list N :=
  [46; 33; 63; 12290; 65281; 65311]%N.

(** [_is_sentence_complete(text)] *)
Definition is_sentence_complete (text : str) : bool :=
  match last text with
  | None => false
  | Some c => bool_decide (c ∈ SENTENCE_ENDINGS)
  end.

(** The four terminators [. ! ? 。]. *)
Definition terminator (c : N) : Prop :=
  c = 46%N \/ c = 33%N \/ c = 63%N \/ c = 12290%N.

(** [_reset()] *)
Definition reset (s : t) : t :=
  mk (period_sec s) (num_checks s) (min_words s) [] None 0.

Definition outcome : Type := bool * option str * bool.

(** [ingest(transcribed_text)] with [time.time()] read as [now]. *)
Definition ingest (now : Q) (transcribed_text : str) (s : t) : outcome * t :=
  if negb (truthy transcribed_text) || negb (truthy (strip transcribed_text))
  then ((false, None, true), s)
  else
    let text := strip transcribed_text in
    let word_count := count_words text in
    let start := match period_start s with None => now | Some p => p end in
    let s := mk (period_sec s) (num_checks s) (min_words s) text
                (Some start) (check_count s + 1) in
    let elapsed := (now - start)%Q in
    if (Z.of_nat word_count <? min_words s)%Z then ((false, None, true), s)
    else if is_sentence_complete text then
      ((true, Some (buffer s), true), reset s)
    else if Qgeb elapsed (period_sec s) || (num_checks s <=? check_count s)%Z
    then ((true, Some (buffer s), true), reset s)
    else ((false, None, true), s).

(** A series of transcriptions, each with the clock reading at its
    [ingest]; returns the outcome of every call and the final state. *)
Fixpoint ingest_all (calls : list (Q * str)) (s : t) : list outcome * t :=
  match calls with
  | [] => ([], s)
  | (now, text) :: calls' =>
      let '(o, s) := ingest now text s in
      let '(os, s) := ingest_all calls' s in
      (o :: os, s)
  end.

(** The call committed something. *)
Definition committed (o : outcome) : bool := o.1.1.

End AudioReconciler.

(** ** [TranslatorApp]: sanity check and [translate] *)
Module App.
Import Py.

(** [_is_llm_output_sane(result, source_text)] for [result] a [str]
    (the [isinstance] test then holds).  [cnt >= len(tokens) * 0.3] is
    [10 * cnt >= 3 * len(tokens)]. *)
Definition is_llm_output_sane (result source_text : str) : bool :=
  if negb (truthy result) then false
  else
    let s := strip result in
    if negb (truthy s) then false
    else
      let src_len := if truthy source_text
                     then length (strip source_text) else 0 in
      if (0 <? src_len) && (max 2000 (src_len * 8) <? length s) then false
      else
        let tokens := Re.runs Re.is_nonspace s in
        if (10 <=? length tokens)
           && (let cnt := Re.most_common_count tokens in
               (15 <=? cnt)
               || (8 <=? cnt) && (3 * length tokens <=? 10 * cnt))
        then false
        else
          let cjk_run := Re.runs_2_8 Re.is_cjk s in
          if (10 <=? length cjk_run)
             && (15 <=? Re.most_common_count cjk_run)
          then false
          else true.

(** Translation back ends. *)
Inductive provider :=
  | LLM | DeepL | Google | Baidu | Youdao | Yandex | LibreTranslate
  | Caiyun | Niutrans.

(** The provider's name in status messages and on the info pill. *)
Definition provider_name (p : provider) : str :=
  match p with
  | LLM => lit "LLM" | DeepL => lit "DeepL" | Google => lit "Google"
  | Baidu => lit "Baidu" | Youdao => lit "Youdao" | Yandex => lit "Yandex"
  | LibreTranslate => lit "LibreTranslate" | Caiyun => lit "Caiyun"
  | Niutrans => lit "Niutrans"
  end.

(** What one provider call does: return a string (possibly empty), return
    [None], or raise; [timed_out] says whether the exception text mentions
    a timeout. *)
Inductive reply :=
  | Text (s : str)
  | ReturnsNone
  | Raises (timed_out : bool).

(** The call failed or returned no result: it raised, returned [None],
    or returned the empty string. *)
Definition failed (r : reply) : Prop :=
  match r with
  | Text (_ :: _) => False
  | _ => True
  end.

(** The outside world during one call of [translate]: the answers of the
    providers, and the effect of [_fix_mixed_llm_output], which is not
    modelled: the repaired text it returns and the provider calls it makes
    on the fragments. *)
Record env := mkEnv {
  llm_reply : str -> option (list (str * str)) -> reply;
  mt_reply : provider -> str -> reply;
  fix_mixed_llm_output : str -> str * list (provider * str)
}.

Record t := mk {
  translation_cache : gmap str str;
  use_large_model : bool;
  using_mt_fallback : bool;
  mt_fallback_message_shown : bool;
  llm_context_sources : list (str * str);
  llm_context_count : nat;
  model_display_name : str;
  current_display_name : str;
  translation_fail_warned : bool;
  status_messages : list (str * Q * bool);
  (* ghost: every provider invocation, in order *)
  provider_calls : list (provider * str)
}.

Definition set_cache (v : gmap str str) (s : t) : t :=
  mk v (use_large_model s) (using_mt_fallback s)
     (mt_fallback_message_shown s) (llm_context_sources s)
     (llm_context_count s) (model_display_name s) (current_display_name s)
     (translation_fail_warned s) (status_messages s) (provider_calls s).

Definition set_fallback (fb shown : bool) (s : t) : t :=
  mk (translation_cache s) (use_large_model s) fb shown
     (llm_context_sources s) (llm_context_count s) (model_display_name s)
     (current_display_name s) (translation_fail_warned s)
     (status_messages s) (provider_calls s).

Definition set_context (v : list (str * str)) (s : t) : t :=
  mk (translation_cache s) (use_large_model s) (using_mt_fallback s)
     (mt_fallback_message_shown s) v (llm_context_count s)
     (model_display_name s) (current_display_name s)
     (translation_fail_warned s) (status_messages s) (provider_calls s).

Definition set_display_name (v : str) (s : t) : t :=
  mk (translation_cache s) (use_large_model s) (using_mt_fallback s)
     (mt_fallback_message_shown s) (llm_context_sources s)
     (llm_context_count s) (model_display_name s) v
     (translation_fail_warned s) (status_messages s) (provider_calls s).

Definition set_fail_warned (v : bool) (s : t) : t :=
  mk (translation_cache s) (use_large_model s) (using_mt_fallback s)
     (mt_fallback_message_shown s) (llm_context_sources s)
     (llm_context_count s) (model_display_name s) (current_display_name s)
     v (status_messages s) (provider_calls s).

Definition set_status (v : list (str * Q * bool)) (s : t) : t :=
  mk (translation_cache s) (use_large_model s) (using_mt_fallback s)
     (mt_fallback_message_shown s) (llm_context_sources s)
     (llm_context_count s) (model_display_name s) (current_display_name s)
     (translation_fail_warned s) v (provider_calls s).

Definition set_calls (v : list (provider * str)) (s : t) : t :=
  mk (translation_cache s) (use_large_model s) (using_mt_fallback s)
     (mt_fallback_message_shown s) (llm_context_sources s)
     (llm_context_count s) (model_display_name s) (current_display_name s)
     (translation_fail_warned s) (status_messages s) v.

(** Truthiness of a list: non-empty. *)
Definition truthy_list {A} (l : list A) : bool :=
  match l with [] => false | _ => true end.

(** [l[-n:]] on a list: the last [n] elements, all of [l] for [n = 0]. *)
Definition last_items {A} (n : nat) (l : list A) : list A :=
  if n =? 0 then l else drop (length l - n) l.

(** [_add_status_message(text, duration_sec, is_good_news)] *)
Definition add_status_message (now : Q) (text : str) (duration_sec : Q)
    (is_good_news : bool) (s : t) : t :=
  let msgs := status_messages s ++ [(text, (now + duration_sec)%Q, is_good_news)] in
  set_status (drop (length msgs - 6) msgs) s.

(** [self._llm_context_sources.append((text, result))] and the trim to
    the last [llm_context_count] pairs. *)
Definition remember_context (text result : str) (s : t) : t :=
  let ctx := llm_context_sources s ++ [(text, result)] in
  let ctx := if llm_context_count s <? length ctx
             then last_items (llm_context_count s) ctx else ctx in
  set_context ctx s.

(** One pass of [for name, fn in zip(names, fns)]: call the providers in
    order until one returns a truthy string; exceptions and empty answers
    move on to the next.  Returns the first success and the calls made. *)
Fixpoint first_success (e : env) (text : str) (ps : list provider)
    : option (provider * str) * list (provider * str) :=
  match ps with
  | [] => (None, [])
  | p :: ps' =>
      match mt_reply e p text with
      | Text (c :: r) => (Some (p, c :: r), [(p, text)])
      | _ => let '(res, calls) := first_success e text ps' in
             (res, (p, text) :: calls)
      end
  end.

(** Provider order after an LLM failure or in MT-fallback state. *)
Definition fallback_chain : list provider :=
  [DeepL; Google; Yandex; LibreTranslate; Caiyun; Niutrans].

(** Provider order in small-model mode. *)
Definition mt_chain : list provider :=
  [DeepL; Google; Baidu; Youdao; Yandex; LibreTranslate; Caiyun; Niutrans].

(** The [try] block of the large-model path.  [inl] is a [return] from
    inside the block; [inr result] leaves the block with the local
    variable [result] ([None] or a string). *)
Definition llm_attempt (e : env) (now : Q) (text : str) (s : t)
    : (str * t) + (option str * t) :=
  if using_mt_fallback s then inr (None, s)
  else
    let context :=
      if truthy_list (llm_context_sources s) && (0 <? llm_context_count s)
      then Some (last_items (llm_context_count s) (llm_context_sources s))
      else None in
    let s := set_calls (provider_calls s ++ [(LLM, text)]) s in
    match llm_reply e text context with
    | Raises timed_out =>
        (* except Exception *)
        let s := add_status_message now
                   (if timed_out then lit "API Timed Out" else lit "API Error")
                   10 false s in
        inr (None, set_fallback true false s)
    | ReturnsNone => inr (None, s)
    | Text r =>
        (* first [if result:]; [_llm_5sec_message_shown] was cleared just
           before the call and is only set by the UI tick *)
        let result := if truthy r
                      then (if negb (is_llm_output_sane r text)
                            then None else Some r)
                      else Some r in
        match result with
        | Some (c :: r') =>
            let '(fixed, calls) := fix_mixed_llm_output e (c :: r') in
            let s := set_calls (provider_calls s ++ calls) s in
            let result := if negb (is_llm_output_sane fixed text)
                          then None else Some fixed in
            match result with
            | Some (d :: f') =>
                let s := remember_context text (d :: f') s in
                let s := set_display_name (model_display_name s) s in
                let s := set_cache (<[text := d :: f']> (translation_cache s)) s in
                inl (d :: f', s)
            | other => inr (other, s)
            end
        | other => inr (other, s)
        end
    end.

(** [translate(text)] with [time.time()] read as [now]. *)
Definition translate (e : env) (now : Q) (text : str) (s : t) : str * t :=
  match translation_cache s !! text with
  | Some cached => (cached, s)
  | None =>
      let after_chains : (str * t) + t :=
        if use_large_model s then
          match llm_attempt e now text s with
          | inl r => inl r
          | inr (Some _, s) => inr s
          | inr (None, s) =>
              let '(res, calls) := first_success e text fallback_chain in
              let s := set_calls (provider_calls s ++ calls) s in
              match res with
              | Some (p, result) =>
                  let s := if negb (mt_fallback_message_shown s)
                           then set_fallback (using_mt_fallback s) true
                                  (add_status_message now
                                     (lit "switching to " ++ provider_name p)
                                     10 false s)
                           else s in
                  let s := set_display_name (provider_name p) s in
                  let s := remember_context text result s in
                  let s := set_cache (<[text := result]> (translation_cache s)) s in
                  inl (result, s)
              | None => inr s
              end
          end
        else
          let '(res, calls) := first_success e text mt_chain in
          let s := set_calls (provider_calls s ++ calls) s in
          match res with
          | Some (p, result) =>
              let s := set_display_name (provider_name p) s in
              let s := set_cache (<[text := result]> (translation_cache s)) s in
              inl (result, s)
          | None => inr s
          end
      in
      match after_chains with
      | inl r => r
      | inr s =>
          let s := if negb (translation_fail_warned s)
                   then set_fail_warned true s else s in
          let fallback := lit "Translation Failed: " ++ take 15 text in
          (fallback, set_cache (<[text := fallback]> (translation_cache s)) s)
      end
  end.

(** A session: calls of [translate] one after the other. *)
Fixpoint run (reqs : list (env * Q * str)) (s : t) : t :=
  match reqs with
  | [] => s
  | (e, now, text) :: reqs' => run reqs' (translate e now text s).2
  end.

(** [f"Translation Failed: {text[:15]}"] *)
Definition placeholder (text : str) : str :=
  lit "Translation Failed: " ++ take 15 text.

(** A world in which every provider times out. *)
Definition all_down : env :=
  mkEnv (fun _ _ => Raises true) (fun _ _ => Raises true) (fun r => (r, [])).

(** The dispatcher at the start of a session. *)
Definition fresh (large : bool) : t :=
  mk ∅ large false false [] 3 (lit "Qwen2.5-7B") [] false [] [].

(** The context handed to the LLM: the last [llm_context_count] pairs, or
    [None] when there are none or the count is 0. *)
Definition context_for (s : t) : option (list (str * str)) :=
  if truthy_list (llm_context_sources s) && (0 <? llm_context_count s)
  then Some (last_items (llm_context_count s) (llm_context_sources s))
  else None.

(** [_get_active_status_messages()] with [time.time()] read as [now]:
    expired messages are dropped for good; returns [(text, is_good_news)]
    of the others. *)
Definition get_active_status_messages (now : Q) (s : t)
    : list (str * bool) * t :=
  let live := filter (fun m => Qltb now m.1.2 = true) (status_messages s) in
  ((fun m => (m.1.1, m.2)) <$> live, set_status live s).

(** The chain that answers when the LLM is not consulted. *)
Definition chain_without_llm (s : t) : list provider :=
  if use_large_model s then fallback_chain else mt_chain.

(** The same world, except that the LLM returns [None]. *)
Definition silence_llm (e : env) : env :=
  mkEnv (fun _ _ => ReturnsNone) (mt_reply e) (fix_mixed_llm_output e).

(** The fields that [translate] keeps within bounds. *)
Definition tidy (s : t) : Prop :=
  length (status_messages s) <= 6
  /\ (1 <= llm_context_count s ->
      length (llm_context_sources s) <= llm_context_count s).

(** DeepL is down, Google answers "hi"; the LLM raises. *)
Definition google_only : env :=
  mkEnv (fun _ _ => Raises false)
        (fun p _ => match p with
                    | Google => Text (lit "hi")
                    | _ => Raises false
                    end)
        (fun r => (r, [])).

(** The LLM repeats "na" sixteen times; Google would answer. *)
Definition babbling : env :=
  mkEnv (fun _ _ =>
           Text (lit "na na na na na na na na na na na na na na na na"))
        (mt_reply google_only) (fun r => (r, [])).

(** The LLM returns the empty string; every MT provider would answer. *)
Definition mute_llm : env :=
  mkEnv (fun _ _ => Text []) (fun _ _ => Text (lit "hi")) (fun r => (r, [])).

End App.

(** ** [TranslatorApp]: overlay overlap and line wrapping *)
Module Gate.
Import Py.

(** The capture region, a dict with these four keys. *)
Record region := mkRegion { left : Z; top : Z; width : Z; height : Z }.

(** An overlay rectangle [(x, y, w, h)]. *)
Definition rect : Type := Z * Z * Z * Z.

Local Open Scope Z_scope.

(** [_rects_overlap(region, overlay_rect)]; [None] stands for a missing
    (falsy) argument. *)
Definition rects_overlap (reg : option region) (overlay_rect : option rect)
    : bool :=
  match reg, overlay_rect with
  | Some r, Some (ox, oy, ow, oh) =>
      let rx := left r in let ry := top r in
      let rw := width r in let rh := height r in
      negb ((rx + rw <=? ox) || (ox + ow <=? rx)
            || (ry + rh <=? oy) || (oy + oh <=? ry))
  | _, _ => false
  end.

(** [_get_effective_region_for_overlap(region)]: [text_region] is the
    learned band [(y_min, y_max)], if any. *)
Definition get_effective_region_for_overlap (auto_detect_text_region : bool)
    (text_region : option (Z * Z)) (reg : option region) : option region :=
  match reg with
  | None => None
  | Some r =>
      match text_region with
      | Some (y_min, y_max) =>
          if auto_detect_text_region
          then Some (mkRegion (left r) (top r + y_min) (width r)
                              (y_max - y_min))
          else reg
      | None => reg
      end
  end.

(** An integer as a binary64 float (exact below 2^53). *)
Definition float_of_Z (z : Z) : float :=
  if z <? 0 then PrimFloat.opp (PrimFloat.of_uint63 (Uint63.of_Z (- z)))
  else PrimFloat.of_uint63 (Uint63.of_Z z).

(** The double nearest to 0.10. *)
Definition f0_10 : float := 0x1.999999999999ap-4%float.

(** [_overlap_is_significant(region, overlay_rect, inset, min_fraction)];
    the last comparison is made in binary64. *)
Definition overlap_is_significant (reg : option region)
    (overlay_rect : option rect) (inset : Z) (min_fraction : float) : bool :=
  match reg, overlay_rect with
  | Some r, Some (ox, oy, ow, oh) =>
      let rx := left r in let ry := top r in
      let rw := width r in let rh := height r in
      let margin := Z.min (Z.min inset (ow / 3)) (oh / 3) in
      let ox_in := ox + margin in
      let oy_in := oy + margin in
      let ow_in := Z.max 10 (ow - 2 * margin) in
      let oh_in := Z.max 10 (oh - 2 * margin) in
      if (rx + rw <=? ox_in) || (ox_in + ow_in <=? rx)
         || (ry + rh <=? oy_in) || (oy_in + oh_in <=? ry)
      then false
      else
        let ix := Z.max rx ox_in in
        let iy := Z.max ry oy_in in
        let iw := Z.min (rx + rw) (ox_in + ow_in) - ix in
        let ih := Z.min (ry + rh) (oy_in + oh_in) - iy in
        let overlap_area := Z.max 0 iw * Z.max 0 ih in
        let capture_area := rw * rh in
        PrimFloat.leb (PrimFloat.mul (float_of_Z capture_area) min_fraction)
                      (float_of_Z overlap_area)
  | _, _ => false
  end.

End Gate.

Module Wrap.
Import Py.

(** [text.split()]: the maximal runs of non-whitespace. *)
Definition split (text : str) : list str := Re.runs Re.is_nonspace text.

(** One turn of [for word in words]; the state is
    [(lines, current_line, current_length)]. *)
Definition wrap_step (target_length : Z)
    (st : list str * list str * Z) (word : str)
    : list str * list str * Z :=
  let '(lines, current_line, current_length) := st in
  let word_length := Z.of_nat (length word) in
  let space_length := if truthy_items current_line then 1%Z else 0%Z in
  if (current_length + space_length + word_length <=? target_length)%Z
     || negb (truthy_items current_line)
  then (lines, current_line ++ [word],
        (current_length + (space_length + word_length))%Z)
  else (lines ++ [join (lit " ") current_line], [word], word_length).

(** [_wrap_text_by_length(text, target_length)] *)
Definition wrap_text_by_length (text : str) (target_length : Z) : list str :=
  if negb (truthy text) || (target_length <=? 0)%Z
  then (if truthy text then [text] else [])
  else
    let words := split text in
    if negb (truthy_items words) then [text]
    else
      let '(lines, current_line, _) :=
        foldl (wrap_step target_length) ([], [], 0%Z) words in
      let lines := if truthy_items current_line
                   then lines ++ [join (lit " ") current_line] else lines in
      if truthy_items lines then lines else [text].

(** A word: not empty and free of whitespace. *)
Definition word (w : str) : Prop :=
  w <> [] /\ Forall (fun c => Re.is_nonspace c = true) w.

(** The words already placed by the loop: those of the finished lines,
    then those of the line being filled. *)
Definition placed (st : list str * list str * Z) : list str :=
  concat (split <$> st.1.1) ++ st.1.2.

(** A line that fits, or that is one word of the text on its own. *)
Definition fits (target : Z) (words : list str) (line : str) : Prop :=
  (Z.of_nat (length line) <= target)%Z \/ line ∈ words.

(** The loop state: finished lines fit, the length counter is right, and
    the line being filled is not empty and fits so far. *)
Definition filling (target : Z) (words : list str)
    (st : list str * list str * Z) : Prop :=
  Forall (fits target words) st.1.1
  /\ st.1.2 <> []
  /\ st.2 = Z.of_nat (length (join (lit " ") st.1.2))
  /\ fits target words (join (lit " ") st.1.2).

End Wrap.

(** ** [TranslatorApp.translation_thread]: accounting of one item *)
Module Worker.
Import Py.

(** One record of the session log. *)
Record entry := mkEntry {
  ocr_raw : str;
  source_text : str;
  translation : str;
  model : str;
  timestamp : Q
}.

Record t := mk {
  app : App.t;
  session_word_count_by_model : gmap str nat;
  session_output_enabled : bool;
  session_output_buffer : list entry;
  (* ghost: the entries in the session file after the last flush that
     succeeded *)
  session_file : list entry
}.

(** [_flush_session_output()]: the whole buffer is written over the
    session file; [write_ok] says whether writing succeeded (a failure is
    caught and leaves the file as it was). *)
Definition flush_session_output (write_ok : bool) (w : t) : t :=
  if negb (truthy_items (session_output_buffer w)) then w
  else if write_ok then
    mk (app w) (session_word_count_by_model w) (session_output_enabled w)
       (session_output_buffer w) (session_output_buffer w)
  else w.

(** The [try] block of [translation_thread] for one item
    [(text, ..., raw_ocr)]: translate, count the words for the model that
    answered, and log the pair.  [translate] does not raise. *)
Definition account (e : App.env) (write_ok : bool) (now : Q) (text : str)
    (raw_ocr : option str) (w : t) : str * t :=
  let was_cached :=
    bool_decide (is_Some (App.translation_cache (app w) !! text)) in
  let '(translated, a) := App.translate e now text (app w) in
  if truthy translated
     && negb (startswith translated (lit "Translation Failed"))
     && negb was_cached
  then
    let model := App.current_display_name a in
    let n := count_words text in
    let counts :=
      <[model := default 0 (session_word_count_by_model w !! model) + n]>
        (session_word_count_by_model w) in
    if session_output_enabled w then
      let buf := session_output_buffer w
                 ++ [mkEntry (default text raw_ocr) text translated model now] in
      let w := mk a counts true buf (session_file w) in
      (translated, if 10 <=? length buf then flush_session_output write_ok w
                   else w)
    else
      (translated,
       mk a counts false (session_output_buffer w) (session_file w))
  else
    (translated,
     mk a (session_word_count_by_model w) (session_output_enabled w)
        (session_output_buffer w) (session_file w)).

(** Items handled one after the other. *)
Fixpoint run (items : list (App.env * bool * Q * str * option str)) (w : t)
    : t :=
  match items with
  | [] => w
  | (e, write_ok, now, text, raw) :: items' =>
      run items' (account e write_ok now text raw w).2
  end.

(** The worker at the start of a session. *)
Definition fresh (a : App.t) (log : bool) : t := mk a ∅ log [] [].

End Worker.

(** ** [TranslatorApp]: the display stack and the deduplication windows *)
Module Display.
Import Py.

Record t := mk {
  display_stack : list str;
  recent_translations : list (str * Q);
  recent_sources : list (str * Q);
  last_text : str;
  last_translation_time : Q
}.

(** The fields as [TranslatorApp.__init__] leaves them. *)
Definition init : t := mk [] [] [] [] 0.

Section WithLower.
(** [str.lower], Python's Unicode lower-casing. *)
Variable lower : str -> str.

(** [set(w for w in x.split() if len(w) > 1)] *)
Definition word_set (x : str) : gset str :=
  list_to_set (filter (fun w => 1 < length w) (Re.runs Re.is_nonspace x)).

(** One turn of [for prev in candidates] in
    [_translation_similar_to_any]: [true] when the function returns
    [True] at this candidate.  [overlap >= 0.65] on a quotient of set
    sizes is [20 * |A ∩ B| >= 13 * |A|]. *)
Definition similar_to (a prev : str) : bool :=
  let a_lower := lower a in
  if negb (truthy prev) || negb (truthy (strip prev)) then false
  else if eqb a (strip prev) then true
  else
    let b := lower (strip prev) in
    if eqb a_lower b then true
    else if (20 <=? length a_lower) && (20 <=? length b)
            && contains b a_lower then true
    else
      let words_a := word_set a_lower in
      let words_b := word_set b in
      if size words_a =? 0 then false
      else if (8 <=? size words_a) && (8 <=? size words_b) then
        let common := size (words_a ∩ words_b) in
        (13 * size words_a <=? 20 * common)
        || (13 * size words_b <=? 20 * common)
      else false.

(** [_translation_similar_to_any(new_text)] with [time.time()] read as
    [now]; the window of recent translations is pruned on the way. *)
Definition translation_similar_to_any (now : Q) (new_text : str) (s : t)
    : bool * t :=
  let a := strip new_text in
  if negb (truthy a) then (true, s)
  else
    let fresh := filter (fun p => Qltb (now - p.2) 12 = true)
                   (recent_translations s) in
    let candidates := display_stack s ++ fresh.*1 in
    let s := mk (display_stack s) fresh (recent_sources s) (last_text s)
                (last_translation_time s) in
    (existsb (similar_to a) candidates, s).

(** [while len(self._display_stack) > 2: popped = pop(0); recent.append]
    with [n] the number of entries of the stack. *)
Fixpoint pop_overflow (now : Q) (n : nat) (stack : list str)
    (recent : list (str * Q)) : list str * list (str * Q) :=
  match n with
  | O => (stack, recent)
  | S n' =>
      if 2 <? length stack then
        match stack with
        | popped :: stack' =>
            pop_overflow now n' stack' (recent ++ [(popped, now)])
        | [] => (stack, recent)
        end
      else (stack, recent)
  end.

(** The body of [for text, original_length in parsed] in [ui_update]:
    [now] is the clock read before the loop, [now'] the one read inside
    the similarity test.  Speaking the sentence and redrawing the
    overlay do not touch these fields and are left out. *)
Definition ui_item (now now' : Q) (text : str) (s : t) : t :=
  let sentence_text := if truthy text then strip text else [] in
  if negb (truthy sentence_text) then s
  else
    let '(similar, s) := translation_similar_to_any now' sentence_text s in
    if similar then s
    else
      let stack := display_stack s ++ [sentence_text] in
      let '(stack, recent) :=
        pop_overflow now (length stack) stack (recent_translations s) in
      let recent := if 20 <? length recent
                    then drop (length recent - 20) recent else recent in
      mk stack recent (recent_sources s) (last_text s) now.

(** The state change of [_source_similar_to_any(text)]: entries older
    than 15 s leave the window (nothing happens for a blank [text]). *)
Definition source_window_prune (now : Q) (text : str) (s : t) : t :=
  if negb (truthy text) || negb (truthy (strip text)) then s
  else
    mk (display_stack s) (recent_translations s)
       (filter (fun p => Qltb (now - p.2) 15 = true) (recent_sources s))
       (last_text s) (last_translation_time s).

(** What every producer ([ocr_thread], the audio path) does with a text
    it hands to the translator:
    [self._recent_sources.append((text, now))] and the cut to the last
    15 entries ([last_text] is set at the same place). *)
Definition source_window_push (now : Q) (text : str) (s : t) : t :=
  let recent := recent_sources s ++ [(text, now)] in
  let recent := if 15 <? length recent
                then drop (length recent - 15) recent else recent in
  mk (display_stack s) (recent_translations s) recent text
     (last_translation_time s).

(** The operations that touch the two windows. *)
Inductive op :=
  | UiItem (now now' : Q) (text : str)
  | SourcePrune (now : Q) (text : str)
  | SourcePush (now : Q) (text : str).

Definition step (o : op) (s : t) : t :=
  match o with
  | UiItem now now' text => ui_item now now' text s
  | SourcePrune now text => source_window_prune now text s
  | SourcePush now text => source_window_push now text s
  end.

Definition run (ops : list op) (s : t) : t := foldl (fun s o => step o s) s ops.

End WithLower.

(** The window of recent sources still holds the entry [(text, now)],
    with at most [k] entries after it. *)
Definition holds (text : str) (now : Q) (k : nat) (s : t) : Prop :=
  exists pre post,
    recent_sources s = pre ++ (text, now) :: post /\ length post <= k.

(** An append to [_recent_sources]. *)
Definition is_push (o : op) : bool :=
  match o with SourcePush _ _ => true | _ => false end.

(** A call of [_source_similar_to_any] among the operations reads the
    clock no later than [t]. *)
Definition pruned_by (t : Q) (o : op) : Prop :=
  match o with SourcePrune now _ => (now <= t)%Q | _ => True end.

(** [str.lower] on ASCII letters; other code points are left as they
    are (exact on ASCII strings). *)
Definition ascii_lower (x : str) : str :=
  map (fun c => if (65 <=? c)%N && (c <=? 90)%N then (c + 32)%N else c) x.

(** The two windows within their bounds. *)
Definition bounded (s : t) : Prop :=
  length (recent_sources s) <= 15 /\ length (recent_translations s) <= 20.

(** Eighteen different one-letter translations ("a" to "r") shown at the
    same clock reading. *)
Definition eighteen_items : list op :=
  map (fun c => UiItem 100 100 [c]) (N.of_nat <$> seq 97 18).

(** [_texts_similar(a, b)]; [threshold] is
    [ocr_similarity_substring_chars] (15 unless configured). *)
Definition texts_similar (threshold : Z) (a b : str) : bool :=
  if negb (truthy a) || negb (truthy b) then true
  else
    let a := strip a in
    let b := strip b in
    if eqb a b then true
    else
      let '(shorter, longer) :=
        if length a <=? length b then (a, b) else (b, a) in
      if contains longer shorter then
        (Z.of_nat (length longer) - Z.of_nat (length shorter) <=? threshold)%Z
      else
        let len_ratio :=
          (flen longer / inject_Z (Z.of_nat (max 1 (length shorter))))%Q in
        if Qgtb len_ratio 2 then false
        else
          let has_cjk :=
            existsb (fun c => ((19968 <=? c) && (c <=? 40959)
                               || (12352 <=? c) && (c <=? 12543))%N)
                    (a ++ b) in
          let chars_a : gset N := list_to_set a in
          let chars_b : gset N := list_to_set b in
          let overlap :=
            if negb (size chars_a =? 0) && negb (size chars_b =? 0)
            then (inject_Z (Z.of_nat (size (chars_a ∩ chars_b)))
                  / inject_Z (Z.of_nat (min (size chars_a) (size chars_b))))%Q
            else 0%Q in
          if has_cjk
             && (Qgeb overlap (6 # 10)
                 || (8 <=? length shorter)
                    && (let core := min 12 (length shorter) in
                        contains longer (take core shorter)
                        || contains longer (last_n core shorter)))
          then true
          else
            let diffs :=
              length (filter (fun p => p.1 <> p.2) (zip a b)) in
            let max_len := max (length a) (length b) in
            diffs <=? max 6 (max_len / 2).

(** [_source_similar_to_any(text)] with [time.time()] read as [now]. *)
Definition source_similar_to_any (threshold : Z) (now : Q) (text : str)
    (s : t) : bool * t :=
  if negb (truthy text) || negb (truthy (strip text)) then (true, s)
  else
    let recent :=
      filter (fun p => Qltb (now - p.2) 15 = true) (recent_sources s) in
    let s := mk (display_stack s) (recent_translations s) recent
                (last_text s) (last_translation_time s) in
    (existsb (fun p => truthy p.1 && texts_similar threshold text p.1) recent,
     s).

End Display.

(** * Facts about the string operations *)
Module PyFacts.
Import Py.

Lemma startswith_app (x y : str) : startswith (x ++ y) x = true.
Proof.
  induction x as [|c x IH]; simpl; [done|].
  by rewrite N.eqb_refl.
Qed.

Lemma startswith_refl (x : str) : startswith x x = true.
Proof. rewrite <- (app_nil_r x) at 1. apply startswith_app. Qed.

Lemma eqb_true (a b : str) : eqb a b = true <-> a = b.
Proof. unfold eqb. apply bool_decide_eq_true. Qed.

Lemma eqb_refl (a : str) : eqb a a = true.
Proof. by apply eqb_true. Qed.

Lemma truthy_false (s : str) : truthy s = false <-> s = [].
Proof. destruct s; simpl; split; congruence. Qed.

Lemma lstrip_blank (s : str) : blank s -> lstrip s = [].
Proof.
  induction 1 as [|c s Hc _ IH]; simpl; [done|]. by rewrite Hc.
Qed.

Lemma lstrip_nil_blank (s : str) : lstrip s = [] -> blank s.
Proof.
  induction s as [|c s IH]; simpl; [constructor|].
  destruct (isspace c) eqn:E; [|done].
  intros H. constructor; [done | by apply IH].
Qed.

(** [lstrip] splits off a blank prefix. *)
Lemma lstrip_split (s : str) : exists w, blank w /\ s = w ++ lstrip s.
Proof.
  induction s as [|c s (w & Hw & IH)]; simpl.
  - exists []. split; [constructor | done].
  - destruct (isspace c) eqn:E.
    + exists (c :: w). split; [by constructor|]. simpl. by f_equal.
    + exists []. split; [constructor | done].
Qed.

Lemma blank_reverse (s : str) : blank (reverse s) <-> blank s.
Proof. unfold blank. rewrite !Forall_forall. setoid_rewrite elem_of_reverse. done. Qed.

(** [rstrip] splits off a blank suffix. *)
Lemma rstrip_split (s : str) : exists w, blank w /\ s = rstrip s ++ w.
Proof.
  destruct (lstrip_split (reverse s)) as (w & Hw & E).
  exists (reverse w). split; [by apply blank_reverse|].
  unfold rstrip. rewrite <- reverse_app, <- E. by rewrite reverse_involutive.
Qed.

(** [strip] removes a blank prefix and a blank suffix. *)
Lemma strip_split (s : str) :
  exists w1 w2, blank w1 /\ blank w2 /\ s = w1 ++ strip s ++ w2.
Proof.
  destruct (lstrip_split s) as (w1 & H1 & E1).
  destruct (rstrip_split (lstrip s)) as (w2 & H2 & E2).
  exists w1, w2. repeat split; try done.
  unfold strip. by rewrite <- E2.
Qed.

Lemma blank_app (u v : str) : blank (u ++ v) <-> blank u /\ blank v.
Proof. apply Forall_app. Qed.

Lemma strip_blank (s : str) : blank s -> strip s = [].
Proof.
  intros H. unfold strip, rstrip. rewrite (lstrip_blank s H). done.
Qed.

Lemma strip_nil_blank (s : str) : strip s = [] -> blank s.
Proof.
  intros H. destruct (strip_split s) as (w1 & w2 & H1 & H2 & E).
  rewrite H in E. rewrite E. apply blank_app. done.
Qed.

(** A string that ends with a non-space character keeps its end. *)
Lemma lstrip_snoc (s : str) (c : N) :
  isspace c = false -> lstrip (s ++ [c]) = lstrip s ++ [c].
Proof.
  intros Hc. induction s as [|d s IH]; simpl.
  - by rewrite Hc.
  - destruct (isspace d); [done | done].
Qed.

Lemma rstrip_snoc (s : str) (c : N) :
  isspace c = false -> rstrip (s ++ [c]) = s ++ [c].
Proof.
  intros Hc. unfold rstrip. rewrite reverse_app.
  change (reverse [c]) with [c]. simpl. rewrite Hc.
  rewrite reverse_cons, reverse_involutive. done.
Qed.

Lemma strip_snoc (s : str) (c : N) :
  isspace c = false -> strip (s ++ [c]) = lstrip (s ++ [c]).
Proof.
  intros Hc. unfold strip. rewrite lstrip_snoc by done.
  by apply rstrip_snoc.
Qed.

End PyFacts.

(** * The sequence matcher always answers *)
Module DifflibFacts.
Import Py Difflib.

Lemma j2lenget_le j2len j n : row_le j2len n -> j2lenget j2len j <= n.
Proof.
  intros H. destruct j as [|j']; simpl; [lia|].
  destruct (j2len !! j') as [v|] eqn:E; simpl; [eauto | lia].
Qed.

Lemma row_le_empty n : row_le ∅ n.
Proof. intros j v. by rewrite lookup_empty. Qed.

Lemma row_le_insert m j k n :
  row_le m n -> k <= n -> row_le (<[j:=k]> m) n.
Proof.
  intros Hm Hk j' v. rewrite lookup_insert.
  case_decide; [intros [= <-]; done | apply Hm].
Qed.

(** One row of the table keeps the best block inside [a[alo:i+1]]. *)
Lemma flm_inner_inv alo j2len i blo bhi js best new :
  alo <= i -> row_le j2len (i - alo) ->
  block_in alo (S i) best -> row_le new (S i - alo) ->
  block_in alo (S i) (flm_inner j2len i blo bhi js best new).1
  /\ row_le (flm_inner j2len i blo bhi js best new).2 (S i - alo).
Proof.
  intros Hi Hrow. revert best new.
  induction js as [|j js IH]; intros best new Hb Hn; simpl; [done|].
  destruct (j <? blo); [by apply IH|].
  destruct (bhi <=? j); [done|].
  pose proof (j2lenget_le j2len j _ Hrow) as Hk.
  apply IH.
  - destruct (m_size best <? j2lenget j2len j + 1); [|done].
    split; simpl; lia.
  - apply row_le_insert; [done | lia].
Qed.

Lemma flm_outer_inv a b alo blo bhi n : forall i0 best j2len,
  alo <= i0 -> row_le j2len (i0 - alo) -> block_in alo i0 best ->
  block_in alo (i0 + n) (flm_outer a b blo bhi (seq i0 n) best j2len).
Proof.
  induction n as [|n IH]; intros i0 best j2len Hi Hrow Hb; simpl.
  - by rewrite Nat.add_0_r.
  - destruct (a !! i0) as [c|]; [|destruct Hb; split; lia].
    destruct (flm_inner j2len i0 blo bhi (b2j b c) best ∅)
      as [best' new] eqn:E.
    pose proof (flm_inner_inv alo j2len i0 blo bhi (b2j b c) best ∅
                  Hi Hrow) as H.
    rewrite E in H. simpl in H.
    destruct H as [H1 H2];
      [destruct Hb; split; lia | apply row_le_empty |].
    replace (i0 + S n) with (S i0 + n) by lia.
    apply IH; [lia | done | done].
Qed.

Lemma extend_left_inv a b alo blo : forall besti bestj bestsize,
  alo <= besti ->
  alo <= m_a (extend_left a b alo blo besti bestj bestsize)
  /\ m_a (extend_left a b alo blo besti bestj bestsize)
     + m_size (extend_left a b alo blo besti bestj bestsize)
     = besti + bestsize.
Proof.
  induction besti as [|i' IH]; intros bestj bestsize Hlo; simpl; [done|].
  destruct bestj as [|j']; [done|].
  destruct ((alo <? S i') && (blo <? S j') && same_at a b i' j') eqn:E;
    [|done].
  apply andb_prop in E as [E _]. apply andb_prop in E as [E _].
  apply Nat.ltb_lt in E.
  destruct (IH j' (S bestsize)) as [H1 H2]; [lia|]. split; [done | lia].
Qed.

Lemma extend_right_inv a b ahi bhi besti bestj n : forall bestsize,
  besti + bestsize <= ahi ->
  m_a (extend_right a b ahi bhi besti bestj bestsize n) = besti
  /\ besti + m_size (extend_right a b ahi bhi besti bestj bestsize n) <= ahi.
Proof.
  induction n as [|n IH]; intros bestsize H; simpl; [done|].
  destruct ((besti + bestsize <? ahi) && (bestj + bestsize <? bhi)
            && same_at a b (besti + bestsize) (bestj + bestsize)) eqn:E;
    [|done].
  apply andb_prop in E as [E _]. apply andb_prop in E as [E _].
  apply Nat.ltb_lt in E. apply IH. lia.
Qed.

(** The block returned by [find_longest_match] lies in [a[alo:ahi]]. *)
Lemma find_longest_match_bounds a b alo ahi blo bhi :
  alo <= ahi -> block_in alo ahi (find_longest_match a b alo ahi blo bhi).
Proof.
  intros H. unfold find_longest_match.
  set (best := flm_outer _ _ _ _ _ _ _).
  assert (Hb : block_in alo ahi best).
  { replace ahi with (alo + (ahi - alo)) at 1 by lia.
    apply flm_outer_inv; [lia | apply row_le_empty | split; simpl; lia]. }
  destruct Hb as [Hb1 Hb2].
  destruct (extend_left_inv a b alo blo (m_a best) (m_b best)
              (m_size best) Hb1) as [Hl1 Hl2].
  set (l := extend_left _ _ _ _ _ _ _) in *.
  destruct (extend_right_inv a b ahi bhi (m_a l) (m_b l)
              (ahi - (m_a l + m_size l)) (m_size l)) as [Hr1 Hr2]; [lia|].
  split; rewrite Hr1; done.
Qed.

(** Fuel at least the weight of the queue is enough. *)
Lemma blocks_loop_enough a b : forall fuel queue acc,
  queue_ok queue -> queue_weight queue <= fuel ->
  is_Some (blocks_loop fuel a b queue acc).
Proof.
  induction fuel as [|fuel IH]; intros queue acc Hok Hw.
  - destruct queue as [|[[[alo ahi] blo] bhi] q]; simpl; [eauto|].
    simpl in Hw. lia.
  - destruct queue as [|[[[alo ahi] blo] bhi] q]; simpl; [eauto|].
    simpl in Hw. inversion Hok as [|? ? Hr Hq]; subst.
    pose proof (find_longest_match_bounds a b alo ahi blo bhi Hr)
      as [B1 B2].
    set (x := find_longest_match a b alo ahi blo bhi) in *.
    destruct (m_size x =? 0) eqn:Ek; [apply IH; [done | lia]|].
    apply Nat.eqb_neq in Ek.
    apply IH.
    + destruct ((alo <? m_a x) && (blo <? m_b x)) eqn:E1;
      destruct ((m_a x + m_size x <? ahi) && (m_b x + m_size x <? bhi))
        eqn:E2;
      repeat constructor; try done; lia.
    + destruct ((alo <? m_a x) && (blo <? m_b x)) eqn:E1;
      destruct ((m_a x + m_size x <? ahi) && (m_b x + m_size x <? bhi))
        eqn:E2;
      simpl; lia.
Qed.

(** [get_matching_blocks] terminates within [blocks_fuel]: the default
    in [found_blocks] is never used. *)
Lemma blocks_loop_terminates a b :
  blocks_loop (blocks_fuel a) a b [(0, length a, 0, length b)] []
  = Some (found_blocks a b).
Proof.
  unfold found_blocks.
  destruct (blocks_loop_enough a b (blocks_fuel a)
              [(0, length a, 0, length b)] []) as [r Hr].
  - repeat constructor. lia.
  - unfold blocks_fuel. simpl. lia.
  - by rewrite Hr.
Qed.

(** ** The block found is a longest common block *)














End DifflibFacts.

(** * The machine-translation reconciler *)
Module ReconcilerSpec.
Import Py PyFacts Reconciler.

(** A repeated frame, a grown frame and a first frame all replace the
    buffer. *)
Lemma merge_prefix (old new : str) :
  startswith new old = true -> merge_with_overlap old new = new.
Proof.
  intros H. unfold merge_with_overlap.
  destruct (negb (truthy old)); [done|].
  destruct (_ && _ && _); [done|]. by rewrite H.
Qed.

(** C3.  The merge laws: [Merge(x, x) = x], [Merge(x, x·y) = x·y] and
    [Merge("", x) = x], for all strings [x] and [y] (the second law also
    holds for the empty [y], where it is the first). *)
Theorem merge_laws (x y : str) :
  merge_with_overlap x x = x
  /\ merge_with_overlap x (x ++ y) = x ++ y
  /\ merge_with_overlap [] x = x.
Proof.
  split; [|split].
  - apply merge_prefix, startswith_refl.
  - apply merge_prefix, startswith_app.
  - reflexivity.
Qed.

(** C2, as the code has it.  Against the buffer "the quick brown" the
    frame "quick brown fox" has length ratio 1 and similarity 22/30, so
    rule 2 replaces the buffer before the boundary-overlap rule is
    tried: in every state with that buffer the merge gives
    "quick brown fox". *)
Theorem merge_quick_brown_fox (s : t) :
  unstable_buffer s = lit "the quick brown" ->
  merge_with_overlap (unstable_buffer s) (lit "quick brown fox")
  = lit "quick brown fox".
Proof. intros ->. vm_compute. reflexivity. Qed.

Lemma merge_quick_brown_fox_witness :
  let s := set_unstable_buffer (lit "the quick brown") (init (2 # 10) 0) in
  merge_with_overlap (unstable_buffer s) (lit "quick brown fox")
  = lit "quick brown fox".
Proof. intros s. apply (merge_quick_brown_fox s). reflexivity. Defined.

(** C2, as the claim states it, fails: the merged buffer is not
    "the quick brown fox". *)
Lemma merge_quick_brown_fox_not_joined :
  merge_with_overlap (lit "the quick brown") (lit "quick brown fox")
  <> lit "the quick brown fox".
Proof. vm_compute. discriminate. Qed.

(** The boundary-overlap rule itself joins two frames when the earlier
    rules do not apply. *)
Example merge_boundary_overlap :
  merge_with_overlap (lit "the quick brown fox jumps over")
                     (lit "over the lazy dog")
  = lit "the quick brown fox jumps over the lazy dog".
Proof. vm_compute. reflexivity. Qed.

(** C10.  A frame that is empty or consists of whitespace only is
    ignored: [ingest] returns [(False, None, False)] and the state
    (buffers, last frame and all timers) is the one before the call,
    whatever the clock says. *)
Theorem ingest_blank_ignored (now : Q) (new_text : str) (s : t) :
  blank new_text ->
  ingest now new_text s = ((false, None, false), s).
Proof.
  intros H. unfold ingest. rewrite (strip_blank _ H). simpl.
  by rewrite orb_true_r.
Qed.

Lemma ingest_blank_ignored_witness :
  let s := at_0_2 ni_hao_shi_jie ni_hao_shi_jie 0 (Some (1 # 10))%Q
             (Some 0%Q) in
  ingest 5 [32; 9; 10]%N s = ((false, None, false), s).
Proof.
  intros s. apply (ingest_blank_ignored 5 [32; 9; 10]%N s).
  repeat constructor.
Defined.

Local Open Scope Q_scope.

(** C1, as the claim states it, fails: with the clock at 0, 0.05, 0.10
    and 0.30 none of the four calls commits.  The frame at 0.30 is the
    first repetition, so it only starts the stability clock. *)
Lemma progressive_reveal_four_frames_no_commit :
  (ingest_all (progressive_reveal 0) (init (2 # 10) 0)).1
  = [(false, None, false); (false, None, false); (false, None, false);
     (false, None, false)].
Proof. vm_compute. reflexivity. Qed.

Local Opaque Qplus Qminus Qmult Qle_bool Qeq_bool.

(** Evaluate the string tests of [ingest] on closed frames. *)
Ltac eval_closed :=
  repeat match goal with
  | |- context [eqb ?a ?b] =>
      let v := eval vm_compute in (eqb a b) in
      match v with
      | true => change (eqb a b) with true
      | false => change (eqb a b) with false
      end
  | |- context [strip ?a] =>
      let v := eval vm_compute in (strip a) in
      progress change (strip a) with v
  | |- context [merge_with_overlap ?a ?b] =>
      let v := eval vm_compute in (merge_with_overlap a b) in
      progress change (merge_with_overlap a b) with v
  end.

(** Decide the next clock comparison: it fails ([clock_not_due]) or it
    holds ([clock_due]). *)
Ltac clock_not_due :=
  match goal with
  | |- context [Qle_bool ?a ?b] =>
      let E := fresh "E" in
      destruct (Qle_bool a b) eqn:E;
      [apply Qle_bool_iff in E; exfalso; lra | clear E]
  end.

Ltac clock_due :=
  match goal with
  | |- context [Qle_bool ?a ?b] =>
      let E := fresh "E" in let E' := fresh "E" in
      destruct (Qle_bool a b) eqn:E;
      [clear E | exfalso; assert (a <= b)%Q as E' by lra;
                 apply Qle_bool_iff in E'; congruence]
  end.

(** The first frame fills the buffer and records its start time. *)
Lemma reveal_frame_1 (T0 tc : Q) :
  ingest T0 ni (init (2 # 10) tc)
  = (quiet, at_0_2 ni ni T0 None (Some T0)).
Proof.
  unfold ingest, init. eval_closed. cbn. unfold Qgeb.
  destruct (negb (Qeq_bool T0 0)); cbn; [clock_not_due|]; reflexivity.
Qed.

(** The second and third frames extend the buffer; the stability clock
    stays off. *)
Lemma reveal_frame_2 (T0 : Q) :
  ingest (T0 + (5 # 100)) ni_hao (at_0_2 ni ni T0 None (Some T0))
  = (quiet, at_0_2 ni_hao ni_hao (T0 + (5 # 100)) None (Some T0)).
Proof.
  unfold ingest, at_0_2. eval_closed. cbn. eval_closed. cbn. unfold Qgeb.
  destruct (negb (Qeq_bool T0 0)); cbn; [clock_not_due|]; reflexivity.
Qed.

Lemma reveal_frame_3 (T0 : Q) :
  ingest (T0 + (10 # 100)) ni_hao_shi_jie
    (at_0_2 ni_hao ni_hao (T0 + (5 # 100)) None (Some T0))
  = (quiet, at_0_2 ni_hao_shi_jie ni_hao_shi_jie (T0 + (10 # 100)) None
              (Some T0)).
Proof.
  unfold ingest, at_0_2. eval_closed. cbn. eval_closed. cbn. unfold Qgeb.
  destruct (negb (Qeq_bool T0 0)); cbn; [clock_not_due|]; reflexivity.
Qed.

(** The fourth frame repeats the third: the stability clock starts now,
    0.30 s after the first frame, and nothing is committed. *)
Lemma reveal_frame_4 (T0 : Q) :
  ingest (T0 + (30 # 100)) ni_hao_shi_jie
    (at_0_2 ni_hao_shi_jie ni_hao_shi_jie (T0 + (10 # 100)) None (Some T0))
  = (quiet, at_0_2 ni_hao_shi_jie ni_hao_shi_jie (T0 + (10 # 100))
              (Some (T0 + (30 # 100))) (Some T0)).
Proof.
  unfold ingest, at_0_2. eval_closed. cbn. unfold Qgeb. clock_not_due.
  cbn. eval_closed.
  destruct (negb (Qeq_bool T0 0)); cbn; [clock_not_due|];
    (destruct (negb (Qeq_bool (T0 + (30 # 100)) 0)); cbn;
     [clock_not_due; cbn|]; reflexivity).
Qed.

(** A further repetition 0.2 s or more after the fourth frame commits. *)
Lemma reveal_frame_5 (T0 t5 : Q) :
  T0 + (5 # 10) <= t5 ->
  (ingest t5 ni_hao_shi_jie
     (at_0_2 ni_hao_shi_jie ni_hao_shi_jie (T0 + (10 # 100))
        (Some (T0 + (30 # 100))) (Some T0))).1
  = (true, Some ni_hao_shi_jie, true).
Proof.
  intros H. unfold ingest, at_0_2. eval_closed. cbn. unfold Qgeb.
  clock_due. cbn. eval_closed. reflexivity.
Qed.

(** C1, as the code has it.  With [stability_threshold = 0.2], whatever
    the clock reading [T0] of the first frame, the four frames at
    [T0], [T0 + 0.05], [T0 + 0.10] and [T0 + 0.30] produce no commit;
    one more frame 你好世界 at [T0 + 0.50] or later produces the one
    commit, of the text 你好世界. *)
Theorem progressive_reveal_commit (T0 tc t5 : Q) :
  T0 + (5 # 10) <= t5 ->
  (ingest_all (progressive_reveal T0 ++ [(t5, ni_hao_shi_jie)])
     (init (2 # 10) tc)).1
  = [(false, None, false); (false, None, false); (false, None, false);
     (false, None, false); (true, Some ni_hao_shi_jie, true)].
Proof.
  intros H. unfold progressive_reveal. cbn [app ingest_all].
  rewrite reveal_frame_1, reveal_frame_2, reveal_frame_3, reveal_frame_4.
  pose proof (reveal_frame_5 T0 t5 H) as E.
  destruct (ingest t5 ni_hao_shi_jie _) as [o s]. simpl in E. subst o.
  reflexivity.
Qed.

Lemma progressive_reveal_commit_witness :
  (ingest_all (progressive_reveal 1000 ++ [(10005 # 10, ni_hao_shi_jie)])
     (init (2 # 10) 999)).1
  = [(false, None, false); (false, None, false); (false, None, false);
     (false, None, false); (true, Some ni_hao_shi_jie, true)].
Proof.
  apply (progressive_reveal_commit 1000 999 (10005 # 10)).
  vm_compute. discriminate.
Defined.

End ReconcilerSpec.

(** * The LLM reconciler's merge against the MT reconciler's *)
Module LLMReconcilerSpec.
Import Py PyFacts Difflib DifflibFacts.















End LLMReconcilerSpec.

(** * Regular-expression scans and stripping *)
Module ReFacts.
Import Py PyFacts Re.

Lemma spaceless_nonspace : spaceless is_nonspace.
Proof. intros c H. unfold is_nonspace. by rewrite H. Qed.

Lemma spaceless_cjk : spaceless is_cjk.
Proof.
  intros c. unfold isspace, is_cjk. intros H.
  destruct (N.leb_spec 19968 c), (N.leb_spec 12352 c),
    (N.leb_spec 44032 c); simpl; try lia;
  repeat match goal with
  | |- context [(?a <=? ?b)%N] => destruct (N.leb_spec a b); simpl
  end; try done; try lia;
  repeat match type of H with
  | context [(?a <=? ?b)%N] => destruct (N.leb_spec a b); simpl in H
  | context [(?a =? ?b)%N] => destruct (N.eqb_spec a b); simpl in H
  end; try done; lia.
Qed.

Lemma spaceless_latin : spaceless is_latin.
Proof.
  intros c. unfold isspace, is_latin. intros H.
  repeat match goal with
  | |- context [(?a <=? ?b)%N] => destruct (N.leb_spec a b); simpl
  end; try done;
  repeat match type of H with
  | context [(?a <=? ?b)%N] => destruct (N.leb_spec a b); simpl in H
  | context [(?a =? ?b)%N] => destruct (N.eqb_spec a b); simpl in H
  end; try done; lia.
Qed.

Section Scans.
Context (cls : N -> bool) (Hcls : spaceless cls).

Lemma runs_from_blank (w : str) : blank w -> forall cur,
  runs_from cls cur w = match cur with [] => [] | _ => [cur] end.
Proof.
  induction 1 as [|c w Hc _ IH]; intros cur; simpl; [done|].
  rewrite (Hcls c Hc). rewrite IH. by destruct cur.
Qed.

Lemma runs_from_app_blank (s w : str) : blank w -> forall cur,
  runs_from cls cur (s ++ w) = runs_from cls cur s.
Proof.
  intros Hw. induction s as [|c s IH]; intros cur; simpl.
  - by apply runs_from_blank.
  - destruct (cls c); [apply IH|]. destruct cur; by rewrite IH.
Qed.

Lemma runs_blank_app (w s : str) :
  blank w -> runs cls (w ++ s) = runs cls s.
Proof.
  unfold runs. induction 1 as [|c w Hc _ IH]; simpl; [done|].
  by rewrite (Hcls c Hc).
Qed.

(** [re.findall] of a whitespace-free class sees the same runs in [s] and
    in [s.strip()]. *)
Lemma runs_strip (s : str) : runs cls (strip s) = runs cls s.
Proof.
  destruct (strip_split s) as (w1 & w2 & H1 & H2 & E).
  rewrite E at 2. rewrite runs_blank_app by done.
  unfold runs. by rewrite runs_from_app_blank.
Qed.

Lemma runs_2_8_from_blank (w : str) : blank w -> forall cur,
  runs_2_8_from cls cur w = if 2 <=? length cur then [cur] else [].
Proof.
  induction 1 as [|c w Hc _ IH]; intros cur; simpl; [done|].
  rewrite (Hcls c Hc), !IH. change (2 <=? length (@nil N)) with false.
  by destruct (2 <=? length cur).
Qed.

Lemma runs_2_8_from_app_blank (s w : str) : blank w -> forall cur,
  runs_2_8_from cls cur (s ++ w) = runs_2_8_from cls cur s.
Proof.
  intros Hw. induction s as [|c s IH]; intros cur; simpl.
  - by apply runs_2_8_from_blank.
  - destruct (cls c).
    + destruct (length cur <? 8); by rewrite IH.
    + destruct (2 <=? length cur); by rewrite IH.
Qed.

Lemma runs_2_8_blank_app (w s : str) :
  blank w -> runs_2_8 cls (w ++ s) = runs_2_8 cls s.
Proof.
  unfold runs_2_8. induction 1 as [|c w Hc _ IH]; simpl; [done|].
  by rewrite (Hcls c Hc).
Qed.

Lemma runs_2_8_strip (s : str) : runs_2_8 cls (strip s) = runs_2_8 cls s.
Proof.
  destruct (strip_split s) as (w1 & w2 & H1 & H2 & E).
  rewrite E at 2. rewrite runs_2_8_blank_app by done.
  unfold runs_2_8. by rewrite runs_2_8_from_app_blank.
Qed.

Lemma filter_blank (w : str) :
  blank w -> filter (fun c => cls c = true) w = [].
Proof.
  induction 1 as [|c w Hc _ IH]; [done|].
  rewrite filter_cons_False; [done|]. rewrite (Hcls c Hc). done.
Qed.

Lemma filter_strip (s : str) :
  filter (fun c => cls c = true) (strip s)
  = filter (fun c => cls c = true) s.
Proof.
  destruct (strip_split s) as (w1 & w2 & H1 & H2 & E).
  rewrite E at 2.
  rewrite !filter_app, (filter_blank w1 H1), (filter_blank w2 H2).
  by rewrite app_nil_r.
Qed.

End Scans.

(** Counting occurrences. *)
Lemma count_le_length (x : str) (l : list str) : count x l <= length l.
Proof. unfold count. apply length_filter. Qed.

Lemma count_le_fold (x : str) (l l' : list str) :
  x ∈ l -> count x l' <= foldr (fun y acc => max (count y l') acc) 0 l.
Proof.
  induction 1 as [y l|y z l _ IH]; simpl; lia.
Qed.

Lemma count_pos_elem (x : str) (l : list str) : 0 < count x l -> x ∈ l.
Proof.
  unfold count. intros H.
  destruct (filter (fun y => y = x) l) as [|y r] eqn:E; [simpl in H; lia|].
  assert (Hy : y ∈ filter (fun y => y = x) l) by (rewrite E; left).
  apply list_elem_of_filter in Hy as [-> Hy]. done.
Qed.

(** No element occurs more often than the most common one. *)
Lemma count_le_most_common (x : str) (l : list str) :
  count x l <= most_common_count l.
Proof.
  destruct (count x l) as [|n] eqn:E; [lia|].
  rewrite <- E. apply count_le_fold, count_pos_elem. lia.
Qed.

End ReFacts.

(** * The audio reconciler *)
Module AudioReconcilerSpec.
Import Py PyFacts Re ReFacts AudioReconciler.

(** The word count does not see surrounding whitespace. *)
Lemma count_words_strip (text : str) :
  count_words (strip text) = count_words text.
Proof.
  unfold count_words.
  destruct (truthy (strip text)) eqn:Hs.
  - assert (truthy text = true) as ->.
    { destruct text; [done | done]. }
    assert (truthy (strip (strip text)) = true) as ->.
    { destruct (strip (strip text)) eqn:E; [|done].
      apply strip_nil_blank in E.
      destruct (strip_split text) as (w1 & w2 & H1 & H2 & Et).
      assert (Hb : blank text).
      { rewrite Et. apply blank_app. split; [done|]. by apply blank_app. }
      rewrite (strip_blank text Hb) in Hs. done. }
    simpl.
    by rewrite (filter_strip _ spaceless_cjk),
      (runs_strip _ spaceless_latin).
  - simpl. by rewrite orb_true_r.
Qed.

Lemma terminator_not_space (c : N) : terminator c -> isspace c = false.
Proof. intros [->|[->|[->| ->]]]; reflexivity. Qed.

Lemma terminator_ends_sentence (s : str) (c : N) :
  terminator c -> is_sentence_complete (s ++ [c]) = true.
Proof.
  intros H. unfold is_sentence_complete. rewrite last_snoc.
  apply bool_decide_eq_true.
  destruct H as [->|[->|[->| ->]]]; unfold SENTENCE_ENDINGS; set_solver.
Qed.

(** C8.  A transcript with fewer than [min_words] words is never
    committed; a transcript with at least [min_words] words that ends
    with one of [. ! ? 。] is committed at once, with [is_final = True]
    (the committed text is the transcript without leading whitespace). *)
Theorem ingest_commit_policy (now : Q) (transcript : str) (s : t) :
  ((Z.of_nat (count_words transcript) < min_words s)%Z ->
   (ingest now transcript s).1 = (false, None, true))
  /\ (forall body c,
        transcript = body ++ [c] -> terminator c ->
        (min_words s <= Z.of_nat (count_words transcript))%Z ->
        (ingest now transcript s).1
        = (true, Some (lstrip transcript), true)).
Proof.
  split.
  - intros H. unfold ingest.
    destruct (negb (truthy transcript) || negb (truthy (strip transcript)));
      [done|].
    cbn [min_words]. rewrite count_words_strip.
    apply Z.ltb_lt in H. by rewrite H.
  - intros body c -> Hc H. unfold ingest.
    pose proof (terminator_not_space c Hc) as Hsp.
    rewrite (strip_snoc body c Hsp), (lstrip_snoc body c Hsp).
    assert (truthy (body ++ [c]) = true) as -> by (by destruct body).
    assert (truthy (lstrip body ++ [c]) = true) as ->
      by (by destruct (lstrip body)).
    cbn [negb orb min_words buffer].
    rewrite <- (lstrip_snoc body c Hsp), <- (strip_snoc body c Hsp).
    rewrite count_words_strip.
    apply Z.ltb_ge in H. rewrite H.
    rewrite (strip_snoc body c Hsp), (lstrip_snoc body c Hsp).
    by rewrite (terminator_ends_sentence _ c Hc).
Qed.

(** Spec scenario 5 with [min_words = 7]: five words, no commit; eight
    words ending in a full stop, commit. *)
Lemma ingest_commit_policy_witness :
  let s := mk 2 4 7 [] None 0 in
  (ingest 10 (lit "Hello how are you doing") s).1 = (false, None, true)
  /\ (ingest 10 (lit "Hello how are you doing today my friend.") s).1
     = (true, Some (lit "Hello how are you doing today my friend."), true).
Proof.
  intros s. split.
  - apply (proj1 (ingest_commit_policy 10 (lit "Hello how are you doing") s)).
    vm_compute. reflexivity.
  - apply (proj2 (ingest_commit_policy 10
                    (lit "Hello how are you doing today my friend.") s)
             (lit "Hello how are you doing today my friend") 46%N).
    + reflexivity.
    + left. reflexivity.
    + vm_compute. discriminate.
Defined.

End AudioReconcilerSpec.

(** * The dispatcher: sanity check, cache and fall-back *)
Module AppSpec.
Import Py PyFacts Re ReFacts App.

(** C7, as the code has it.  A candidate is rejected when some
    whitespace-delimited token occurs at least 15 times, or at least 8
    times and in at least 30 % of the tokens of a candidate with at
    least 10 tokens, or when one of the runs of 2 to 8 CJK characters cut
    by the left-to-right scan occurs at least 15 times among these
    runs. *)
Theorem repetitive_output_rejected (result source_text tok : str) :
  let tokens := runs is_nonspace result in
  let cjk_run := runs_2_8 is_cjk result in
  15 <= count tok tokens
  \/ (10 <= length tokens /\ 8 <= count tok tokens
      /\ 3 * length tokens <= 10 * count tok tokens)
  \/ 15 <= count tok cjk_run ->
  is_llm_output_sane result source_text = false.
Proof.
  intros tokens cjk_run H. unfold is_llm_output_sane.
  destruct (negb (truthy result)); [done|].
  destruct (negb (truthy (strip result))); [done|].
  destruct (_ && _); [done|].
  rewrite (runs_strip _ spaceless_nonspace),
    (runs_2_8_strip _ spaceless_cjk).
  fold tokens cjk_run.
  pose proof (count_le_most_common tok tokens) as Ht.
  pose proof (count_le_length tok tokens) as Hl.
  pose proof (count_le_most_common tok cjk_run) as Hc.
  pose proof (count_le_length tok cjk_run) as Hcl.
  destruct ((10 <=? length tokens) && _) eqn:E1; [done|].
  destruct ((10 <=? length cjk_run) && _) eqn:E2; [done|].
  exfalso. cbv zeta in E1.
  apply andb_false_iff in E1, E2.
  rewrite orb_false_iff, andb_false_iff in E1.
  rewrite !Nat.leb_gt in E2.
  destruct E1 as [E1 | [E1 [E | E]]]; apply Nat.leb_gt in E1;
    try apply Nat.leb_gt in E; lia.
Qed.

Lemma repetitive_output_rejected_witness :
  is_llm_output_sane
    (lit "na na na na na na na na na na na na na na na na")
    [23398; 26657]%N = false.
Proof.
  apply (repetitive_output_rejected _ _ (lit "na")). left.
  vm_compute. lia.
Defined.

(** C7, as the claim states it, fails below 10 tokens and for CJK text
    written without breaks: eight times "na" (every token, so 100 % of
    them) passes, and so does 奇迹 written 15 times in a row, which the
    scan cuts into three runs of 8 characters and one of 6. *)
Lemma short_repetition_accepted :
  let r := lit "na na na na na na na na" in
  let q := mjoin (replicate 15 [22855; 36857]%N) in
  (count (lit "na") (runs is_nonspace r) = 8
   /\ 3 * length (runs is_nonspace r) <= 10 * 8
   /\ is_llm_output_sane r [23398; 26657]%N = true)
  /\ (occurrences [22855; 36857]%N q = 15
      /\ is_llm_output_sane q [23398; 26657]%N = true).
Proof. vm_compute. repeat split; lia. Qed.

(** A cache hit returns at once and changes nothing. *)
Lemma translate_hit (e : env) (now : Q) (text cached : str) (s : t) :
  translation_cache s !! text = Some cached ->
  translate e now text s = (cached, s).
Proof. intros H. unfold translate. by rewrite H. Qed.

Lemma llm_attempt_returns (e : env) (now : Q) (text r : str) (s s' : t) :
  llm_attempt e now text s = inl (r, s') ->
  translation_cache s' = <[text := r]> (translation_cache s).
Proof.
  unfold llm_attempt.
  destruct (using_mt_fallback s); [done|].
  destruct (llm_reply e text _) as [r0| |timed_out]; [|done|done].
  destruct (if truthy r0 then _ else _) as [[|c r']|]; [done| |done].
  destruct (fix_mixed_llm_output e (c :: r')) as [fixed calls].
  destruct (if negb (is_llm_output_sane fixed text) then _ else _)
    as [[|d f']|]; [done| |done].
  intros [= <- <-]. reflexivity.
Qed.

Lemma llm_attempt_falls_through (e : env) (now : Q) (text : str)
    (res : option str) (s s' : t) :
  llm_attempt e now text s = inr (res, s') ->
  translation_cache s' = translation_cache s.
Proof.
  unfold llm_attempt.
  destruct (using_mt_fallback s); [by intros [= <- <-]|].
  destruct (llm_reply e text _) as [r0| |timed_out];
    [|by intros [= <- <-]|by intros [= <- <-]].
  destruct (if truthy r0 then _ else _) as [[|c r']|];
    [by intros [= <- <-]| |by intros [= <- <-]].
  destruct (fix_mixed_llm_output e (c :: r')) as [fixed calls].
  destruct (if negb (is_llm_output_sane fixed text) then _ else _)
    as [[|d f']|]; [by intros [= <- <-]|done|by intros [= <- <-]].
Qed.

(** On a miss the result of the call, whatever it is, goes into the
    cache under [text], and nothing else in the cache changes. *)
Lemma translate_miss (e : env) (now : Q) (text : str) (s : t) :
  translation_cache s !! text = None ->
  translation_cache (translate e now text s).2
  = <[text := (translate e now text s).1]> (translation_cache s).
Proof.
  intros H. unfold translate. rewrite H.
  destruct (use_large_model s).
  - destruct (llm_attempt e now text s) as [[r s']|[[res|] s']] eqn:E.
    + simpl. by apply llm_attempt_returns in E.
    + apply llm_attempt_falls_through in E. simpl.
      destruct (translation_fail_warned s'); simpl; by rewrite E.
    + apply llm_attempt_falls_through in E.
      destruct (first_success e text fallback_chain)
        as [[[p result]|] calls]; simpl.
      * destruct (mt_fallback_message_shown s'); simpl; by rewrite E.
      * destruct (translation_fail_warned s'); simpl; by rewrite E.
  - destruct (first_success e text mt_chain) as [[[p result]|] calls];
      simpl; [done|].
    by destruct (translation_fail_warned s).
Qed.

(** After a call the result is in the cache. *)
Lemma translate_result_cached (e : env) (now : Q) (text : str) (s : t) :
  translation_cache (translate e now text s).2 !! text
  = Some (translate e now text s).1.
Proof.
  destruct (translation_cache s !! text) as [cached|] eqn:H.
  - by rewrite (translate_hit e now text cached s H).
  - rewrite (translate_miss e now text s H). apply lookup_insert_eq.
Qed.

(** Entries of the cache are never removed or overwritten. *)
Lemma translate_keeps_cache (e : env) (now : Q) (text k v : str) (s : t) :
  translation_cache s !! k = Some v ->
  translation_cache (translate e now text s).2 !! k = Some v.
Proof.
  intros Hk.
  destruct (translation_cache s !! text) as [cached|] eqn:H.
  - by rewrite (translate_hit e now text cached s H).
  - rewrite (translate_miss e now text s H).
    rewrite lookup_insert_ne; [done|]. intros ->. congruence.
Qed.

Lemma run_keeps_cache (reqs : list (env * Q * str)) (k v : str) :
  forall s, translation_cache s !! k = Some v ->
            translation_cache (run reqs s) !! k = Some v.
Proof.
  induction reqs as [|[[e now] text] reqs IH]; intros s H; simpl; [done|].
  by apply IH, translate_keeps_cache.
Qed.

(** C5.  Once [translate(s)] has been called, every later call of
    [translate(s)] in the session, whatever was translated in between
    and whatever the providers would answer now, returns the result of
    the first call and leaves the whole state as it was: the cache, and
    the record of provider calls, to which nothing is added. *)
Theorem translate_again_is_cached
    (e1 e2 : env) (now1 now2 : Q) (text : str)
    (between : list (env * Q * str)) (s : t) :
  let first := translate e1 now1 text s in
  let later := run between first.2 in
  translate e2 now2 text later = (first.1, later)
  /\ provider_calls (translate e2 now2 text later).2 = provider_calls later.
Proof.
  intros first later.
  assert (H : translate e2 now2 text later = (first.1, later)).
  { apply translate_hit. apply run_keeps_cache.
    apply translate_result_cached. }
  split; [done|]. by rewrite H.
Qed.

Lemma first_success_all_failed (e : env) (text : str) (ps : list provider) :
  (forall p, failed (mt_reply e p text)) ->
  (first_success e text ps).1 = None.
Proof.
  intros H. induction ps as [|p ps IH]; simpl; [done|].
  specialize (H p).
  destruct (mt_reply e p text) as [[|c r]| |]; simpl in H; try done;
    destruct (first_success e text ps); simpl in *; done.
Qed.

Lemma llm_attempt_failed (e : env) (now : Q) (text : str) (s : t) :
  (forall context, failed (llm_reply e text context)) ->
  exists res s', llm_attempt e now text s = inr (res, s').
Proof.
  intros H. unfold llm_attempt.
  destruct (using_mt_fallback s); [eauto|].
  match goal with |- context [llm_reply e text ?c] => specialize (H c) end.
  destruct (llm_reply e text _) as [[|c r]| |]; simpl in H; try done;
    simpl; eauto.
Qed.

(** C6.  When the text is not cached and every provider asked raises
    or returns nothing, [translate] still returns: its result is
    "Translation Failed: " followed by the first 15 characters of the
    text, and that placeholder is stored in the cache under the text.
    (Exceptions of the providers are caught inside [translate]; the
    model returns a string on every path.) *)
Theorem translate_all_failed (e : env) (now : Q) (text : str) (s : t) :
  translation_cache s !! text = None ->
  (forall context, failed (llm_reply e text context)) ->
  (forall p, failed (mt_reply e p text)) ->
  (translate e now text s).1 = placeholder text
  /\ translation_cache (translate e now text s).2
     = <[text := placeholder text]> (translation_cache s).
Proof.
  intros Hmiss Hllm Hmt.
  assert (H : (translate e now text s).1 = placeholder text).
  { unfold translate. rewrite Hmiss.
    destruct (use_large_model s).
    - destruct (llm_attempt_failed e now text s Hllm) as (res & s' & ->).
      destruct res as [r|]; [done|].
      pose proof (first_success_all_failed e text fallback_chain Hmt) as F.
      destruct (first_success e text fallback_chain) as [res calls].
      simpl in F. subst res. done.
    - pose proof (first_success_all_failed e text mt_chain Hmt) as F.
      destruct (first_success e text mt_chain) as [res calls].
      simpl in F. subst res. done. }
  split; [done|]. rewrite (translate_miss e now text s Hmiss). by rewrite H.
Qed.

Lemma translate_all_failed_witness :
  (translate all_down 0 (lit "hello") (fresh true)).1
  = placeholder (lit "hello")
  /\ translation_cache (translate all_down 0 (lit "hello") (fresh true)).2
     = <[lit "hello" := placeholder (lit "hello")]> ∅.
Proof.
  apply (translate_all_failed all_down 0 (lit "hello") (fresh true)).
  - reflexivity.
  - intros context. exact I.
  - intros p. exact I.
Defined.

End AppSpec.

(** * The deduplication windows *)
Module DisplaySpec.
Import Py Display.

Section Bounds.
Context (lower : str -> str).

Lemma translation_similar_to_any_bounded now text s :
  bounded s -> bounded (translation_similar_to_any lower now text s).2.
Proof.
  intros [H1 H2]. unfold translation_similar_to_any.
  destruct (negb (truthy (strip text))); [done|].
  split; simpl; [done|].
  etrans; [apply length_filter | done].
Qed.

Lemma ui_item_bounded now now' text s :
  bounded s -> bounded (ui_item lower now now' text s).
Proof.
  intros H. unfold ui_item.
  destruct (negb (truthy _)); [done|].
  pose proof (translation_similar_to_any_bounded now'
                (if truthy text then strip text else []) s H) as H'.
  destruct (translation_similar_to_any lower now' _ s) as [similar s'].
  simpl in H'. destruct similar; [done|].
  destruct (pop_overflow now _ _ _) as [stack recent].
  destruct H' as [H1 H2]. split; simpl; [done|].
  destruct (20 <? length recent) eqn:E; [|by apply Nat.ltb_ge in E].
  rewrite length_drop. apply Nat.ltb_lt in E. lia.
Qed.

Lemma source_window_prune_bounded now text s :
  bounded s -> bounded (source_window_prune now text s).
Proof.
  intros [H1 H2]. unfold source_window_prune.
  destruct (_ || _); [done|]. split; simpl; [|done].
  etrans; [apply length_filter | done].
Qed.

Lemma source_window_push_bounded now text s :
  bounded s -> bounded (source_window_push now text s).
Proof.
  intros [H1 H2]. unfold source_window_push. split; simpl; [|done].
  destruct (15 <? length _) eqn:E; [|by apply Nat.ltb_ge in E].
  rewrite length_drop. apply Nat.ltb_lt in E. lia.
Qed.

Lemma step_bounded o s : bounded s -> bounded (step lower o s).
Proof.
  destruct o; simpl; auto using ui_item_bounded,
    source_window_prune_bounded, source_window_push_bounded.
Qed.

Lemma run_bounded ops : forall s, bounded s -> bounded (run lower ops s).
Proof.
  unfold run. induction ops as [|o ops IH]; intros s H; simpl; [done|].
  by apply IH, step_bounded.
Qed.

(** C9, as the code has it.  After any sequence of operations on a
    fresh application the recent-sources window holds at most 15
    entries and the recent-translations window at most 20. *)
Theorem windows_bounded (ops : list op) :
  length (recent_sources (run lower ops init)) <= 15
  /\ length (recent_translations (run lower ops init)) <= 20.
Proof. apply run_bounded. split; simpl; lia. Qed.

End Bounds.

(** C9, as the claim states it, fails for the recent-translations
    window: after 18 different translations the stack holds 2 and the
    window the other 16. *)
Lemma recent_translations_exceed_15 :
  length (recent_translations (run ascii_lower eighteen_items init)) = 16.
Proof. vm_compute. reflexivity. Qed.

End DisplaySpec.

(** * Further properties of the modelled code *)

(** ** More on strings *)
Module PyMore.
Import Py PyFacts.

Lemma truthy_true (x : str) : truthy x = true <-> x <> [].
Proof. destruct x; simpl; split; done. Qed.

Lemma lstrip_idem (s : str) : lstrip (lstrip s) = lstrip s.
Proof.
  induction s as [|c s IH]; simpl; [done|].
  destruct (isspace c) eqn:E; [done|]. simpl. by rewrite E.
Qed.

Lemma rstrip_idem (s : str) : rstrip (rstrip s) = rstrip s.
Proof. unfold rstrip. by rewrite reverse_involutive, lstrip_idem. Qed.

(** [rstrip] keeps a first character that is not a space. *)
Lemma rstrip_cons (c : N) (s : str) :
  isspace c = false -> exists r, rstrip (c :: s) = c :: r.
Proof.
  intros Hc. destruct (rstrip_split (c :: s)) as (w & Hw & E).
  destruct (rstrip (c :: s)) as [|d r].
  - simpl in E. subst w. inversion Hw; congruence.
  - injection E as -> _. eauto.
Qed.

Lemma lstrip_rstrip_lstrip (s : str) :
  lstrip (rstrip (lstrip s)) = rstrip (lstrip s).
Proof.
  destruct (lstrip s) as [|c r] eqn:E; [done|].
  assert (Hc : isspace c = false).
  { destruct (isspace c) eqn:Hc; [|done].
    pose proof (lstrip_idem s) as H. rewrite E in H. simpl in H.
    rewrite Hc in H.
    assert (length (lstrip r) <= length r).
    { clear. induction r as [|d r IH]; simpl; [lia|].
      destruct (isspace d); simpl; lia. }
    rewrite H in H0. simpl in H0. lia. }
  destruct (rstrip_cons c r Hc) as [r' ->]. simpl. by rewrite Hc.
Qed.

(** Stripping twice is stripping once. *)
Lemma strip_idem (s : str) : strip (strip s) = strip s.
Proof.
  unfold strip. rewrite lstrip_rstrip_lstrip. apply rstrip_idem.
Qed.

Lemma strip_nonempty_not_blank (s : str) : strip s <> [] <-> ~ blank s.
Proof.
  split.
  - intros H Hb. by apply H, strip_blank.
  - intros H E. by apply H, strip_nil_blank.
Qed.

Lemma not_blank_app_l (u v : str) : ~ blank u -> ~ blank (u ++ v).
Proof. intros H Hb. apply H. by apply blank_app in Hb as [? _]. Qed.

Lemma not_blank_app_r (u v : str) : ~ blank v -> ~ blank (u ++ v).
Proof. intros H Hb. apply H. by apply blank_app in Hb as [_ ?]. Qed.

Lemma join_nonempty (sep x : str) (rest : list str) :
  x <> [] -> join sep (x :: rest) <> [].
Proof. intros H. destruct rest; simpl; [done|]. by destruct x. Qed.

Lemma join_snoc (sep x : str) (l : list str) :
  l <> [] -> join sep (l ++ [x]) = join sep l ++ sep ++ x.
Proof.
  induction l as [|y l IH]; [done|]. intros _.
  destruct l as [|z l]; [done|].
  change (join sep ((y :: z :: l) ++ [x]))
    with (y ++ sep ++ join sep ((z :: l) ++ [x])).
  rewrite IH by done. simpl. by rewrite <- !app_assoc.
Qed.

Lemma contains_at_start (s p : str) :
  startswith s p = true -> contains s p = true.
Proof. intros H. destruct s; simpl; by rewrite H. Qed.

Lemma contains_middle (pre a post : str) :
  contains (pre ++ a ++ post) a = true.
Proof.
  induction pre as [|c pre IH]; simpl.
  - apply contains_at_start, startswith_app.
  - by rewrite IH, orb_true_r.
Qed.

End PyMore.

(** ** The machine-translation reconciler: commits, buffers, display text *)
Module ReconcilerMore.
Import Py PyFacts PyMore Reconciler.

Lemma overlap_scan_some (old new : str) (lo n : nat) : forall i merged,
  overlap_scan old new lo i n = Some merged ->
  exists k, merged = old ++ drop k new.
Proof.
  induction n as [|n IH]; intros i merged; simpl; [done|].
  destruct (i <? lo); [done|].
  destruct (eqb _ _); [intros [= <-]; eauto | apply IH].
Qed.

(** Merging a frame that is not empty gives a buffer that is not empty. *)
Lemma merge_nonempty (old new : str) :
  new <> [] -> merge_with_overlap old new <> [].
Proof.
  intros Hn. unfold merge_with_overlap.
  destruct old as [|c old]; [done|].
  cbn [truthy negb].
  destruct (_ && _ && _); [done|].
  destruct (startswith new (c :: old)); [done|].
  destruct (contains new (c :: old)); [done|].
  destruct (overlap_scan _ _ _ _ _) as [merged|] eqn:E.
  { by apply overlap_scan_some in E as [k ->]. }
  cbv zeta.
  destruct (2 <=? _).
  - destruct (_ =? length (c :: old)); [done|].
    destruct (_ && _); [done|]. by destruct (take _ _).
  - destruct (len_gt_scaled _ _ _); [done|].
    by destruct (len_gt_scaled _ _ _).
Qed.

(** X5.  The merged buffer is never longer than the old buffer and the
    frame together, and it is not empty when the frame is not. *)
Theorem merge_size (old new : str) :
  length (merge_with_overlap old new) <= length old + length new
  /\ (new <> [] -> merge_with_overlap old new <> []).
Proof.
  split; [|apply merge_nonempty].
  unfold merge_with_overlap.
  destruct old as [|c old]; [simpl; lia|].
  cbn [truthy negb].
  destruct (_ && _ && _); [lia|].
  destruct (startswith new (c :: old)); [lia|].
  destruct (contains new (c :: old)); [lia|].
  destruct (overlap_scan _ _ _ _ _) as [merged|] eqn:E.
  { apply overlap_scan_some in E as [k ->].
    rewrite length_app, length_drop. lia. }
  cbv zeta.
  destruct (2 <=? _).
  - destruct (_ =? length (c :: old)).
    + rewrite length_app, length_drop. lia.
    + destruct (_ && _); [lia|].
      rewrite length_app, length_take. lia.
  - destruct (len_gt_scaled _ _ _); [lia|].
    destruct (len_gt_scaled _ _ _); lia.
Qed.

Lemma commit_unstable_spec (s : t) (x : str) :
  unstable_buffer s = x -> x <> [] ->
  stable_buffer (commit_unstable s) = pushed (stable_buffer s) x
  /\ unstable_buffer (commit_unstable s) = []
  /\ stability_start_time (commit_unstable s) = None
  /\ unstable_buffer_start_time (commit_unstable s) = None.
Proof.
  intros <- Hx. unfold commit_unstable, pushed.
  destruct (unstable_buffer s); [done|]. simpl. done.
Qed.

(** The timeout and early-commit tests at the end of [ingest]. *)
Ltac ingest_tail :=
  match goal with
  | Hs3 : stable_buffer ?s3 = stable_buffer ?s |- _ =>
      destruct (_ && _ && Qgeb _ _) eqn:T;
      [ right; exists (unstable_buffer s3);
        apply andb_prop in T as [T _]; apply andb_prop in T as [T _];
        apply truthy_true in T;
        destruct (commit_unstable_spec s3 _ eq_refl T) as (C1 & C2 & C3 & C4);
        cbn [fst snd]; rewrite C1, Hs3; done
      | destruct (_ && _ && _ && _) eqn:T2;
        [ right; exists (unstable_buffer s3);
          apply andb_prop in T2 as [T2 _]; apply andb_prop in T2 as [T2 _];
          apply andb_prop in T2 as [T2 _]; apply truthy_true in T2;
          destruct (commit_unstable_spec s3 _ eq_refl T2)
            as (C1 & C2 & C3 & C4);
          cbn [fst snd]; rewrite C1, Hs3; done
        | left; done ] ]
  end.

(** What a call of [ingest] can do. *)
Lemma ingest_cases (now : Q) (new_text : str) (s : t) :
  ((ingest now new_text s).1 = (false, None, false)
   /\ stable_buffer (ingest now new_text s).2 = stable_buffer s)
  \/ exists x, x <> []
       /\ (ingest now new_text s).1 = (true, Some x, true)
       /\ stable_buffer (ingest now new_text s).2
          = pushed (stable_buffer s) x
       /\ unstable_buffer (ingest now new_text s).2 = []
       /\ stability_start_time (ingest now new_text s).2 = None
       /\ unstable_buffer_start_time (ingest now new_text s).2 = None.
Proof.
  unfold ingest.
  destruct (negb (truthy new_text) || negb (truthy (strip new_text))) eqn:G;
    [left; done|].
  apply orb_false_elim in G as [_ G]. apply negb_false_iff, truthy_true in G.
  set (x := strip new_text) in *.
  destruct (eqb x (last_unstable s)) eqn:Esame.
  - set (s1 := match stability_start_time s with
               | None => _ | Some _ => s end).
    assert (Hs1 : stable_buffer s1 = stable_buffer s)
      by (unfold s1; destruct (stability_start_time s); done).
    destruct (Qgeb _ _).
    + right. exists x. split; [done|].
      set (s2 := if negb (eqb (unstable_buffer s1) x) then _ else s1).
      assert (Hu : unstable_buffer s2 = x).
      { unfold s2. destruct (eqb (unstable_buffer s1) x) eqn:E; simpl;
          [by apply eqb_true in E | done]. }
      assert (Hs2 : stable_buffer s2 = stable_buffer s).
      { unfold s2. destruct (negb _); simpl; done. }
      destruct (commit_unstable_spec s2 x Hu G) as (C1 & C2 & C3 & C4).
      cbn [fst snd]. rewrite Hu, C1, Hs2. done.
    + set (s3 := set_last_unstable x s1).
      assert (Hs3 : stable_buffer s3 = stable_buffer s) by done.
      clearbody s3. ingest_tail.
  - cbn beta iota zeta.
    match goal with |- context [set_last_unstable x ?st] =>
      set (s3 := set_last_unstable x st) end.
    assert (Hs3 : stable_buffer s3 = stable_buffer s).
    { unfold s3. destruct (_ && _); done. }
    clearbody s3. ingest_tail.
Qed.

Lemma pushed_last (buf : list str) (x : str) : last (pushed buf x) = Some x.
Proof.
  unfold pushed. destruct (5 <? length (buf ++ [x])) eqn:E;
    [|apply last_snoc].
  destruct buf as [|y buf]; [simpl in E; done|].
  simpl. apply last_snoc.
Qed.

Lemma pushed_length (buf : list str) (x : str) :
  length buf <= 5 -> length (pushed buf x) <= 5.
Proof.
  intros H. unfold pushed.
  destruct (5 <? length (buf ++ [x])) eqn:E.
  - rewrite length_drop, length_app. simpl. lia.
  - by apply Nat.ltb_ge in E.
Qed.

Lemma pushed_nonempty (buf : list str) (x : str) :
  Forall (fun y => y <> []) buf -> x <> [] ->
  Forall (fun y => y <> []) (pushed buf x).
Proof.
  intros Hb Hx. unfold pushed.
  assert (H : Forall (fun y => y <> []) (buf ++ [x]))
    by (apply Forall_app; split; [done | by constructor]).
  destruct (5 <? _); [by apply Forall_drop | done].
Qed.

(** X1.  A call of [ingest] either commits nothing and leaves the stable
    buffer alone, or returns [(True, text, True)] with a non-empty text
    that becomes the newest unit of the stable buffer, and leaves the
    unstable buffer empty and both timers cleared. *)
Theorem ingest_quiet_or_commit (now : Q) (new_text : str) (s : t) :
  ((ingest now new_text s).1 = (false, None, false)
   /\ stable_buffer (ingest now new_text s).2 = stable_buffer s)
  \/ exists x, x <> []
       /\ (ingest now new_text s).1 = (true, Some x, true)
       /\ last (stable_buffer (ingest now new_text s).2) = Some x
       /\ unstable_buffer (ingest now new_text s).2 = []
       /\ stability_start_time (ingest now new_text s).2 = None
       /\ unstable_buffer_start_time (ingest now new_text s).2 = None.
Proof.
  destruct (ingest_cases now new_text s)
    as [H | (x & Hx & Ho & Hs & Hu & H1 & H2)]; [by left|].
  right. exists x. rewrite Hs, pushed_last. done.
Qed.

Lemma ingest_stable_ok (now : Q) (new_text : str) (s : t) :
  stable_ok s -> stable_ok (ingest now new_text s).2.
Proof.
  intros [H1 H2]. unfold stable_ok.
  destruct (ingest_cases now new_text s)
    as [[_ ->] | (x & Hx & _ & -> & _)]; [done|].
  split; [by apply pushed_length | by apply pushed_nonempty].
Qed.

Lemma ingest_all_stable_ok (frames : list (Q * str)) : forall s,
  stable_ok s -> stable_ok (after frames s).
Proof.
  unfold after.
  induction frames as [|[now text] frames IH]; intros s H; simpl; [done|].
  pose proof (ingest_stable_ok now text s H) as H'.
  destruct (ingest now text s) as [o s1]. simpl in H'.
  specialize (IH s1 H'). destruct (ingest_all frames s1). done.
Qed.

(** X2.  Whatever frames arrive, at whatever times, the stable buffer of a
    reconciler holds at most 5 units and never an empty one. *)
Theorem stable_buffer_bounded (threshold t0 : Q) (frames : list (Q * str)) :
  length (stable_buffer (after frames (init threshold t0))) <= 5
  /\ Forall (fun x => x <> []) (stable_buffer (after frames (init threshold t0))).
Proof.
  apply ingest_all_stable_ok. split; [simpl; lia | constructor].
Qed.

(** X3.  A frame that repeats the last one while the stability clock has run
    for [stability_threshold] is committed at once, and what is
    committed is that frame (stripped), whatever the merged buffer
    held. *)
Theorem repeated_frame_commits (now t0 : Q) (new_text : str) (s : t) :
  strip new_text <> [] ->
  strip new_text = last_unstable s ->
  stability_start_time s = Some t0 ->
  (stability_threshold s <= now - t0)%Q ->
  (ingest now new_text s).1 = (true, Some (strip new_text), true).
Proof.
  intros Hne Hsame Hst Hdue. unfold ingest.
  assert (truthy (strip new_text) = true) as -> by by apply truthy_true.
  assert (truthy new_text = true) as ->.
  { destruct new_text; [done | done]. }
  destruct s as [thr sb ub lu lct sst ubst ts]. simpl in Hsame, Hst, Hdue.
  subst lu sst. cbn [negb orb last_unstable stability_start_time].
  rewrite eqb_refl.
  cbn [stability_start_time stability_threshold unstable_buffer from_option].
  unfold Qgeb. change (id t0) with t0.
  apply Qle_bool_iff in Hdue. rewrite Hdue.
  cbn [fst]. f_equal. f_equal. f_equal.
  destruct (negb (eqb ub (strip new_text))) eqn:E; [done|].
  apply negb_false_iff, eqb_true in E. done.
Qed.

Lemma repeated_frame_commits_witness :
  (ingest 10 (lit " hello there ")
     (at_0_2 (lit "hullo there") (lit "hello there") 9 (Some (975 # 100)%Q)
        (Some 9%Q))).1
  = (true, Some (lit "hello there"), true).
Proof.
  apply (repeated_frame_commits 10 (975 # 100)%Q).
  - vm_compute. discriminate.
  - vm_compute. reflexivity.
  - reflexivity.
  - vm_compute. discriminate.
Defined.

Lemma get_current_text_joined (s : t) :
  stable_ok s ->
  get_current_text s
  = join (lit " ")
      (stable_buffer s
       ++ (if truthy (unstable_buffer s) then [unstable_buffer s] else [])).
Proof.
  intros [_ H]. unfold get_current_text.
  destruct (stable_buffer s) as [|x rest] eqn:E; simpl truthy_items; cbv iota.
  - simpl. by destruct (unstable_buffer s).
  - inversion H as [|? ? Hx Hrest]; subst.
    pose proof (join_nonempty (lit " ") x rest Hx) as Hj.
    apply truthy_true in Hj. rewrite Hj. cbn [andb].
    destruct (truthy (unstable_buffer s)).
    + by rewrite join_snoc.
    + by rewrite app_nil_r.
Qed.

(** X6.  The text shown for a reconciler, after any stream of frames, is the
    committed units still in the stable buffer followed by the pending
    unstable buffer (when there is one), joined by single spaces. *)
Theorem current_text_is_joined_units (threshold t0 : Q)
    (frames : list (Q * str)) :
  let s := after frames (init threshold t0) in
  get_current_text s
  = join (lit " ")
      (stable_buffer s
       ++ (if truthy (unstable_buffer s) then [unstable_buffer s] else [])).
Proof.
  intros s. apply get_current_text_joined.
  apply ingest_all_stable_ok. split; [simpl; lia | constructor].
Qed.

(** X4.  A buffer is never kept longer than twice the stability threshold:
    when the unstable buffer is not empty and was started
    [2 * stability_threshold] or more ago, the next non-blank frame
    commits, whatever it says.  (A start time of exactly 0.0 counts as
    "not set" in the timeout test.) *)
Theorem old_buffer_commits (now t0 : Q) (new_text : str) (s : t) :
  ~ blank new_text ->
  unstable_buffer s <> [] ->
  unstable_buffer_start_time s = Some t0 ->
  ~ (t0 == 0)%Q ->
  (stability_threshold s * 2 <= now - t0)%Q ->
  (ingest now new_text s).1.1.1 = true.
Proof.
  intros Hnb Hub Hst Ht0 Hdue. unfold ingest.
  assert (Hx : strip new_text <> []).
  { intros E. by apply Hnb, strip_nil_blank. }
  assert (truthy (strip new_text) = true) as -> by by apply truthy_true.
  assert (truthy new_text = true) as -> by (destruct new_text; done).
  assert (Hz : Qeq_bool t0 0 = false).
  { destruct (Qeq_bool t0 0) eqn:E; [|done]. by apply Qeq_bool_iff in E. }
  apply Qle_bool_iff in Hdue.
  destruct s as [thr sb ub lu lct sst ubst ts]. simpl in Hub, Hst, Hdue.
  subst ubst.
  assert (Hu : truthy ub = true) by by apply truthy_true.
  cbn [negb orb last_unstable].
  destruct (eqb (strip new_text) lu).
  - destruct sst as [t1|];
      cbn -[Qle_bool Qminus Qmult Qeq_bool merge_with_overlap truthy];
      (destruct (Qgeb _ thr); [done|]);
      cbn -[Qle_bool Qminus Qmult Qeq_bool merge_with_overlap truthy];
      rewrite Hu, Hz; unfold Qgeb; rewrite Hdue; done.
  - cbn -[Qle_bool Qminus Qmult Qeq_bool merge_with_overlap truthy].
    rewrite Hu.
    cbn -[Qle_bool Qminus Qmult Qeq_bool merge_with_overlap truthy].
    assert (truthy (merge_with_overlap ub (strip new_text)) = true) as ->.
    { apply truthy_true. by apply merge_nonempty. }
    rewrite Hz. unfold Qgeb. rewrite Hdue. done.
Qed.

Lemma old_buffer_commits_witness :
  (ingest 10 (lit "something else")
     (at_0_2 (lit "hello there") (lit "hello there") 9 None
        (Some (96 # 10)%Q))).1.1.1 = true.
Proof.
  apply (old_buffer_commits 10 (96 # 10)%Q).
  - intros H. inversion H. discriminate.
  - discriminate.
  - reflexivity.
  - vm_compute. discriminate.
  - vm_compute. discriminate.
Defined.

End ReconcilerMore.

(** ** The LLM reconciler: [ingest] *)
Module LLMReconcilerMore.
Import Py PyFacts PyMore LLMReconciler.

Lemma merge_llm_prefix (old new : str) :
  startswith new old = true -> merge old new = new.
Proof.
  intros H. unfold merge.
  destruct (negb (truthy old)); [done|].
  destruct (_ && _ && _); [done|]. by rewrite H.
Qed.

Lemma overlap_scan_llm_some (old new : str) (n : nat) : forall i merged,
  overlap_scan old new i n = Some merged ->
  exists k, merged = old ++ drop k new.
Proof.
  induction n as [|n IH]; intros i merged; simpl; [done|].
  destruct (i <=? 1); [done|].
  destruct (eqb _ _); [intros [= <-]; eauto | apply IH].
Qed.

Lemma merge_not_blank (old new : str) :
  (old = [] \/ ~ blank old) -> ~ blank new -> ~ blank (merge old new).
Proof.
  intros Hold Hnew. unfold merge.
  destruct old as [|c old]; [done|]. cbn [truthy negb].
  destruct Hold as [|Hold]; [done|].
  destruct (_ && _ && _); [done|].
  destruct (startswith _ _); [done|].
  destruct (contains _ _); [done|].
  destruct (overlap_scan _ _ _ _) as [m|] eqn:E.
  { apply overlap_scan_llm_some in E as [k ->]. by apply not_blank_app_l. }
  destruct (_ && _); [by apply not_blank_app_l|].
  destruct (len_gt_scaled _ _ _); [done|]. by apply not_blank_app_l.
Qed.

(** X7.  An empty or whitespace-only frame is ignored by the LLM reconciler
    too: nothing is returned and no field changes. *)
Theorem ingest_blank_ignored_llm (now : Q) (new_text : str) (s : t) :
  blank new_text -> ingest now new_text s = ((false, None, false), s).
Proof.
  intros H. unfold ingest. rewrite (strip_blank _ H). simpl.
  by rewrite orb_true_r.
Qed.

Lemma ingest_blank_ignored_llm_witness :
  ingest 3 (lit "   ") (mk (12 # 100) (6 # 10) (lit "abc") (lit "abc")
                         (Some 1%Q) (Some 1%Q))
  = ((false, None, false),
     mk (12 # 100) (6 # 10) (lit "abc") (lit "abc") (Some 1%Q) (Some 1%Q)).
Proof. apply ingest_blank_ignored_llm. repeat constructor. Defined.

(** X8.  A call either commits nothing and keeps the buffer well formed, or
    returns [(True, text, True)] with a non-empty text and leaves the
    buffer empty with its start time cleared. *)
Theorem ingest_quiet_or_commit_llm (now : Q) (new_text : str) (s : t) :
  buffer_ok s ->
  ((ingest now new_text s).1 = (false, None, false)
   /\ buffer_ok (ingest now new_text s).2)
  \/ exists y, y <> []
       /\ (ingest now new_text s).1 = (true, Some y, true)
       /\ buffer (ingest now new_text s).2 = []
       /\ buffer_start_time (ingest now new_text s).2 = None.
Proof.
  intros Hok. unfold ingest.
  destruct (negb (truthy new_text) || negb (truthy (strip new_text))) eqn:G;
    [left; done|].
  apply orb_false_elim in G as [_ G]. apply negb_false_iff, truthy_true in G.
  assert (Hnb : ~ blank (strip new_text)).
  { apply strip_nonempty_not_blank. by rewrite strip_idem. }
  pose proof (merge_not_blank (buffer s) (strip new_text) Hok Hnb) as Hm.
  set (merged := merge (buffer s) (strip new_text)) in *.
  assert (Hy : strip merged <> []) by by apply strip_nonempty_not_blank.
  destruct (Qgeb _ _ && truthy merged).
  { right. exists (strip merged). done. }
  destruct (_ && _ && _ && _ && _).
  { right. exists (strip merged). done. }
  left. split; [done|]. right. done.
Qed.

Lemma ingest_quiet_or_commit_llm_witness :
  exists y, y <> []
    /\ (ingest 2 (lit "hello") (mk (12 # 100) (6 # 10) (lit "hello")
          (lit "hello") (Some 1%Q) (Some 1%Q))).1 = (true, Some y, true).
Proof.
  destruct (ingest_quiet_or_commit_llm 2 (lit "hello")
              (mk (12 # 100) (6 # 10) (lit "hello") (lit "hello")
                 (Some 1%Q) (Some 1%Q))) as [[H _] | (y & Hy & Ho & _)].
  - right. vm_compute. intros H. inversion H. discriminate.
  - vm_compute in H. discriminate.
  - exists y. done.
Defined.

Local Open Scope Q_scope.

(** X9.  From a fresh LLM reconciler, a frame and its repetition
    [stability_threshold] or more later give exactly one commit, on the
    second call, of the stripped frame.  (The first clock reading must
    not be 0.0, which [stability_start or now] takes for "not set".) *)
Theorem same_frame_twice_commits (threshold max_time t0 t1 : Q)
    (frame : str) :
  0 < threshold -> 0 < max_time -> ~ t0 == 0 ->
  threshold <= t1 - t0 -> ~ blank frame ->
  let first := ingest t0 frame (init threshold max_time) in
  first.1 = (false, None, false)
  /\ (ingest t1 frame first.2).1 = (true, Some (strip frame), true).
Proof.
  intros Hthr Hmax Ht0 Hdue Hnb.
  apply strip_nonempty_not_blank in Hnb.
  assert (Hx : truthy (strip frame) = true) by by apply truthy_true.
  assert (Hf : truthy frame = true) by (destruct frame; done).
  assert (Hz : Qeq_bool t0 0 = false).
  { destruct (Qeq_bool t0 0) eqn:E; [|done].
    apply Qeq_bool_iff in E. done. }
  assert (Hne : eqb (strip frame) [] = false).
  { destruct (eqb (strip frame) []) eqn:E; [|done]. by apply eqb_true in E. }
  assert (first_eq :
    ingest t0 frame (init threshold max_time)
    = ((false, None, false),
       mk threshold max_time (strip frame) (strip frame)
          (Some t0) (Some t0))).
  { unfold ingest, init. rewrite Hf, Hx. cbn [negb orb buffer truthy].
    change (merge [] (strip frame)) with (strip frame).
    rewrite Hx, Hne. cbn [negb andb stability_threshold max_buffer_time
      buffer_start_time stability_start].
    unfold time_or. rewrite Hz. unfold Qgeb.
    destruct (Qle_bool threshold (t0 - t0)) eqn:E1.
    { apply Qle_bool_iff in E1. lra. }
    cbn [andb]. unfold truthy_time. rewrite Hz. cbn [negb from_option].
    change (id t0) with t0.
    destruct (Qle_bool max_time (t0 - t0)) eqn:E2.
    { apply Qle_bool_iff in E2. lra. }
    rewrite !andb_false_r. cbn [andb]. done. }
  intros first. unfold first. rewrite first_eq. split; [done|].
  cbn [snd]. unfold ingest. rewrite Hf, Hx.
  cbn [negb orb buffer stability_start buffer_start_time
       stability_threshold].
  rewrite (merge_llm_prefix _ _ (startswith_refl (strip frame))).
  rewrite Hx, eqb_refl. cbn [negb andb].
  unfold time_or. rewrite Hz. unfold Qgeb.
  apply Qle_bool_iff in Hdue. rewrite Hdue. cbn [andb fst].
  by rewrite strip_idem.
Qed.

Lemma same_frame_twice_commits_witness :
  (ingest 100 (lit "hello") (init (12 # 100) (6 # 10))).1
  = (false, None, false)
  /\ (ingest (1002 # 10) (lit "hello")
        (ingest 100 (lit "hello") (init (12 # 100) (6 # 10))).2).1
     = (true, Some (lit "hello"), true).
Proof.
  apply (same_frame_twice_commits (12 # 100) (6 # 10) 100 (1002 # 10)
           (lit "hello")).
  - reflexivity.
  - reflexivity.
  - vm_compute. discriminate.
  - vm_compute. discriminate.
  - intros H. inversion H. discriminate.
Defined.

End LLMReconcilerMore.

(** ** The audio reconciler: final answers and the check budget *)
Module AudioReconcilerMore.
Import Py PyFacts PyMore Re ReFacts AudioReconciler.

(** X10.  Every answer of the audio reconciler is marked final, and a commit
    returns the stripped transcript, which is not empty, and discards the
    buffer: the reconciler is back in its reset state. *)
Theorem ingest_final_and_reset (now : Q) (transcript : str) (s : t) :
  (ingest now transcript s).1.2 = true
  /\ ((ingest now transcript s).1.1.1 = true ->
      (ingest now transcript s).1.1.2 = Some (strip transcript)
      /\ strip transcript <> []
      /\ (ingest now transcript s).2 = reset s).
Proof.
  unfold ingest.
  destruct (negb (truthy transcript) || negb (truthy (strip transcript)))
    eqn:G; [done|].
  apply orb_false_elim in G as [_ G]. apply negb_false_iff, truthy_true in G.
  cbn [min_words buffer period_sec num_checks check_count].
  destruct (_ <? _)%Z; [done|].
  destruct (is_sentence_complete _); [done|].
  destruct (_ || _); done.
Qed.

(** With enough words and the check budget used up, the transcript is
    committed whatever its ending. *)
Lemma ingest_budget_commits (now : Q) (transcript : str) (s : t) :
  ~ blank transcript ->
  (min_words s <= Z.of_nat (count_words (strip transcript)))%Z ->
  (num_checks s <= check_count s + 1)%Z ->
  committed (ingest now transcript s).1 = true.
Proof.
  intros Hnb Hw Hc. unfold ingest.
  assert (Hs : strip transcript <> []).
  { intros E. by apply Hnb, strip_nil_blank. }
  assert (truthy (strip transcript) = true) as -> by by apply truthy_true.
  assert (truthy transcript = true) as -> by (destruct transcript; done).
  cbn [negb orb min_words buffer period_sec num_checks check_count].
  apply Z.ltb_ge in Hw. rewrite Hw.
  destruct (is_sentence_complete _); [done|].
  apply Z.leb_le in Hc. rewrite Hc. by rewrite orb_true_r.
Qed.

(** A call on a non-blank transcript that does not commit counts as one
    check and keeps the parameters. *)
Lemma ingest_waits (now : Q) (transcript : str) (s : t) :
  ~ blank transcript ->
  committed (ingest now transcript s).1 = false ->
  check_count (ingest now transcript s).2 = (check_count s + 1)%Z
  /\ num_checks (ingest now transcript s).2 = num_checks s
  /\ min_words (ingest now transcript s).2 = min_words s.
Proof.
  intros Hnb. unfold ingest.
  assert (Hs : strip transcript <> []).
  { intros E. by apply Hnb, strip_nil_blank. }
  assert (truthy (strip transcript) = true) as -> by by apply truthy_true.
  assert (truthy transcript = true) as -> by (destruct transcript; done).
  cbn [negb orb min_words buffer period_sec num_checks check_count].
  destruct (_ <? _)%Z; [done|].
  destruct (is_sentence_complete _); [done|].
  destruct (_ || _); done.
Qed.

Lemma ingest_all_cons (now : Q) (text : str) (rest : list (Q * str))
    (s : t) :
  (ingest_all ((now, text) :: rest) s).1
  = (ingest now text s).1 :: (ingest_all rest (ingest now text s).2).1.
Proof.
  cbn [ingest_all]. destruct (ingest now text s) as [o s1]. cbn [fst snd].
  by destruct (ingest_all rest s1).
Qed.

Lemma budget_bounds_wait (calls : list (Q * str)) : forall s,
  calls <> [] ->
  Forall (fun c => ~ blank c.2) calls ->
  (forall c, last calls = Some c ->
             (min_words s <= Z.of_nat (count_words (strip c.2)))%Z) ->
  (num_checks s <= check_count s + Z.of_nat (length calls))%Z ->
  existsb committed (ingest_all calls s).1 = true.
Proof.
  induction calls as [|[now text] rest IH]; intros s Hne Hnb Hlast Hbud;
    [done|].
  inversion Hnb as [|? ? Hc Hrest]; subst. cbn [snd] in Hc.
  rewrite ingest_all_cons. cbn [existsb].
  destruct (committed (ingest now text s).1) eqn:E; [done|].
  destruct (ingest_waits now text s Hc E) as (W1 & W2 & W3).
  destruct rest as [|c rest].
  - exfalso. rewrite ingest_budget_commits in E; [done|done| |].
    + apply (Hlast (now, text)). done.
    + cbn [length] in Hbud. lia.
  - cbn [orb]. apply IH; [done|done| |].
    + intros c' Hc'. rewrite W3. apply Hlast. done.
    + rewrite W1, W2. cbn [length] in *. lia.
Qed.

(** X11.  From a reset reconciler, [num_checks] transcriptions in a row, the
    last of which has [min_words] words or more, never pass without a
    commit. *)
Theorem check_budget_forces_commit (calls : list (Q * str)) (s : t) :
  check_count s = 0%Z ->
  calls <> [] ->
  Z.of_nat (length calls) = num_checks s ->
  Forall (fun c => ~ blank c.2) calls ->
  (forall c, last calls = Some c ->
             (min_words s <= Z.of_nat (count_words c.2))%Z) ->
  existsb committed (ingest_all calls s).1 = true.
Proof.
  intros H0 Hne Hlen Hnb Hlast.
  apply budget_bounds_wait; [done|done| |lia].
  intros c Hc. rewrite AudioReconcilerSpec.count_words_strip. by apply Hlast.
Qed.

Lemma check_budget_forces_commit_witness :
  existsb committed
    (ingest_all
       [(0%Q, lit "one two three four five six seven");
        (1 # 10, lit "one two three four five six seven eight")%Q]
       (mk 2 2 7 [] None 0)).1 = true.
Proof.
  apply check_budget_forces_commit.
  - reflexivity.
  - discriminate.
  - reflexivity.
  - repeat constructor; simpl; intros H; inversion H; discriminate.
  - intros c [= <-]. vm_compute. discriminate.
Defined.

(** Counting words. *)
Lemma runs_from_count (cls : N -> bool) (s : str) : forall cur,
  length (runs_from cls cur s)
  <= length (filter (fun c => cls c = true) s)
     + (match cur with [] => 0 | _ => 1 end).
Proof.
  induction s as [|c s IH]; intros cur; simpl.
  - destruct cur; simpl; lia.
  - destruct (cls c) eqn:E.
    + rewrite filter_cons_True by done. simpl.
      specialize (IH (cur ++ [c])). destruct cur; simpl in *; lia.
    + rewrite filter_cons_False by (rewrite E; done).
      destruct cur; [apply IH | simpl; specialize (IH []); simpl in IH; lia].
Qed.

Lemma cjk_not_latin (c : N) : is_cjk c = true -> is_latin c = false.
Proof.
  unfold is_cjk, is_latin. intros H.
  repeat match goal with
  | |- context [(?a <=? ?b)%N] => destruct (N.leb_spec a b); simpl
  end; try done;
  repeat match type of H with
  | context [(?a <=? ?b)%N] => destruct (N.leb_spec a b); simpl in H
  end; try done; lia.
Qed.

Lemma disjoint_filters (s : str) :
  length (filter (fun c => is_cjk c = true) s)
  + length (filter (fun c => is_latin c = true) s) <= length s.
Proof.
  induction s as [|c s IH]; [done|].
  destruct (is_cjk c) eqn:E.
  - rewrite filter_cons_True by done.
    rewrite (filter_cons_False (fun c => is_latin c = true))
      by (rewrite (cjk_not_latin c E); done).
    simpl. lia.
  - rewrite filter_cons_False by (rewrite E; done).
    destruct (is_latin c) eqn:E2.
    + rewrite filter_cons_True by done. simpl. lia.
    + rewrite filter_cons_False by (rewrite E2; done). simpl. lia.
Qed.

(** X12.  The word count of a text never exceeds its length, and a blank text
    has no words. *)
Theorem count_words_bounds (text : str) :
  count_words text <= length text
  /\ (blank text -> count_words text = 0).
Proof.
  unfold count_words. split.
  - destruct (_ || _); [lia|].
    pose proof (runs_from_count is_latin text []) as H.
    pose proof (disjoint_filters text). unfold runs. simpl in H. lia.
  - intros H. rewrite (strip_blank text H). simpl. by rewrite orb_true_r.
Qed.

End AudioReconcilerMore.

(** ** The dispatcher: bounds, provider order and fall-back state *)
Module AppMore.
Import Py PyFacts App.

Lemma add_status_bounded now text d good s :
  length (status_messages (add_status_message now text d good s)) <= 6.
Proof.
  unfold add_status_message. simpl. rewrite length_drop. lia.
Qed.

Lemma remember_context_bounded text result s :
  1 <= llm_context_count s ->
  length (llm_context_sources s) <= llm_context_count s ->
  length (llm_context_sources (remember_context text result s))
  <= llm_context_count s.
Proof.
  intros H1 H2. unfold remember_context. simpl.
  destruct (llm_context_count s <? _) eqn:E.
  - unfold last_items. destruct (llm_context_count s =? 0) eqn:E0.
    + apply Nat.eqb_eq in E0. lia.
    + rewrite length_drop. lia.
  - by apply Nat.ltb_ge in E.
Qed.

Lemma tidy_status now text d good s :
  tidy s -> tidy (add_status_message now text d good s).
Proof.
  intros [_ H]. split; [apply add_status_bounded | done].
Qed.

Lemma tidy_context text result s :
  tidy s -> tidy (remember_context text result s).
Proof.
  intros [H1 H2]. split; [done|].
  change (llm_context_count (remember_context text result s))
    with (llm_context_count s).
  intros H. by apply remember_context_bounded; [|apply H2].
Qed.

Lemma tidy_calls v s : tidy s -> tidy (set_calls v s).
Proof. done. Qed.

Lemma tidy_cache v s : tidy s -> tidy (set_cache v s).
Proof. done. Qed.

Lemma tidy_display v s : tidy s -> tidy (set_display_name v s).
Proof. done. Qed.

Lemma tidy_fallback fb shown s : tidy s -> tidy (set_fallback fb shown s).
Proof. done. Qed.

Lemma tidy_warned v s : tidy s -> tidy (set_fail_warned v s).
Proof. done. Qed.

(** Case split on the flag tested by the next [if not flag]. *)
Ltac split_flag :=
  match goal with
  | |- context [if negb ?b then _ else _] => destruct b; cbn [negb]
  end.

Create HintDb tidy.
#[local] Hint Resolve tidy_status tidy_context tidy_calls tidy_cache
  tidy_display tidy_fallback tidy_warned : tidy.

Lemma llm_attempt_tidy e now text s :
  tidy s ->
  match llm_attempt e now text s with
  | inl (_, s') => tidy s'
  | inr (_, s') => tidy s'
  end.
Proof.
  intros H. unfold llm_attempt.
  destruct (using_mt_fallback s); [done|].
  destruct (llm_reply e text _) as [r0| |timed_out];
    [|auto with tidy|auto with tidy].
  destruct (if truthy r0 then _ else _) as [[|c r']|];
    [auto with tidy| |auto with tidy].
  destruct (fix_mixed_llm_output e (c :: r')) as [fixed calls].
  destruct (if negb (is_llm_output_sane fixed text) then _ else _)
    as [[|d f']|]; auto 8 with tidy.
Qed.

Lemma translate_tidy e now text s : tidy s -> tidy (translate e now text s).2.
Proof.
  intros H. unfold translate.
  destruct (translation_cache s !! text); [done|].
  destruct (use_large_model s).
  - pose proof (llm_attempt_tidy e now text s H) as HL.
    destruct (llm_attempt e now text s) as [[r s']|[[res|] s']].
    + done.
    + cbn [snd]. split_flag; auto with tidy.
    + destruct (first_success e text fallback_chain)
        as [[[p result]|] calls]; cbn [snd]; split_flag;
        auto 10 with tidy.
  - destruct (first_success e text mt_chain) as [[[p result]|] calls];
      cbn [snd]; [auto with tidy|].
    split_flag; auto with tidy.
Qed.

Lemma translate_keeps_count e now text s :
  llm_context_count (translate e now text s).2 = llm_context_count s.
Proof.
  unfold translate.
  destruct (translation_cache s !! text); [done|].
  destruct (use_large_model s).
  - assert (HL : match llm_attempt e now text s with
                 | inl (_, s') => llm_context_count s' = llm_context_count s
                 | inr (_, s') => llm_context_count s' = llm_context_count s
                 end).
    { unfold llm_attempt.
      destruct (using_mt_fallback s); [done|].
      destruct (llm_reply e text _) as [r0| |timed_out]; [|done|done].
      destruct (if truthy r0 then _ else _) as [[|c r']|]; [done| |done].
      destruct (fix_mixed_llm_output e (c :: r')) as [fixed calls].
      destruct (if negb (is_llm_output_sane fixed text) then _ else _)
        as [[|d f']|]; done. }
    destruct (llm_attempt e now text s) as [[r s']|[[res|] s']].
    + done.
    + simpl. destruct (translation_fail_warned s'); done.
    + destruct (first_success e text fallback_chain)
        as [[[p result]|] calls]; simpl.
      * destruct (mt_fallback_message_shown s'); done.
      * destruct (translation_fail_warned s'); done.
  - destruct (first_success e text mt_chain) as [[[p result]|] calls];
      simpl; [done|]. destruct (translation_fail_warned s); done.
Qed.

Lemma run_tidy reqs : forall s, tidy s -> tidy (run reqs s).
Proof.
  induction reqs as [|[[e now] text] reqs IH]; intros s H; simpl; [done|].
  by apply IH, translate_tidy.
Qed.

Lemma run_keeps_count reqs : forall s,
  llm_context_count (run reqs s) = llm_context_count s.
Proof.
  induction reqs as [|[[e now] text] reqs IH]; intros s; simpl; [done|].
  by rewrite IH, translate_keeps_count.
Qed.

(** X13.  Through a whole session the dispatcher never holds more than 6
    status messages, and never more than [llm_context_count] context
    pairs when that count is at least 1. *)
Theorem session_lists_bounded (reqs : list (env * Q * str)) (s : t) :
  length (status_messages s) <= 6 ->
  1 <= llm_context_count s ->
  length (llm_context_sources s) <= llm_context_count s ->
  length (status_messages (run reqs s)) <= 6
  /\ length (llm_context_sources (run reqs s)) <= llm_context_count s.
Proof.
  intros H1 H2 H3.
  destruct (run_tidy reqs s) as [T1 T2]; [by split|].
  split; [done|]. rewrite run_keeps_count in T2. by apply T2.
Qed.

Lemma session_lists_bounded_witness :
  let reqs := [(all_down, 0%Q, lit "a"); (all_down, 1%Q, lit "b")] in
  length (status_messages (run reqs (fresh true))) <= 6
  /\ length (llm_context_sources (run reqs (fresh true))) <= 3.
Proof.
  intros reqs. apply (session_lists_bounded reqs (fresh true)); simpl; lia.
Defined.

(** The calls made by one pass over a chain, when it stops at [p]. *)
Lemma first_success_stops (e : env) (text r : str) (p : provider)
    (pre post : list provider) :
  (forall q, q ∈ pre -> failed (mt_reply e q text)) ->
  mt_reply e p text = Text r -> r <> [] ->
  first_success e text (pre ++ p :: post)
  = (Some (p, r), (fun q => (q, text)) <$> (pre ++ [p])).
Proof.
  intros Hpre Hp Hr. induction pre as [|q pre IH]; simpl.
  - rewrite Hp. destruct r; [done | done].
  - assert (Hq : failed (mt_reply e q text)) by (apply Hpre; left).
    rewrite IH by (intros q' Hq'; apply Hpre; by right).
    destruct (mt_reply e q text) as [[|c r']| |]; simpl in Hq; done.
Qed.

(** Every call of a pass goes to a provider of the chain. *)
Lemma first_success_calls (e : env) (text : str) (ps : list provider) :
  Forall (fun c => c.1 ∈ ps) (first_success e text ps).2.
Proof.
  induction ps as [|p ps IH]; simpl; [constructor|].
  assert (H : Forall (fun c : provider * str => c.1 ∈ p :: ps)
                (first_success e text ps).2).
  { eapply Forall_impl; [exact IH|]. intros c Hc. by right. }
  destruct (mt_reply e p text) as [[|c r]| |];
    destruct (first_success e text ps) as [res calls]; simpl in *;
    repeat constructor; try done; left.
Qed.

Lemma chain_without_llm_no_llm (s : t) : LLM ∉ chain_without_llm s.
Proof.
  unfold chain_without_llm, fallback_chain, mt_chain.
  destruct (use_large_model s); intros H;
    repeat (inversion H as [|? ? ? H']; subst; clear H; rename H' into H);
    inversion H.
Qed.

(** When the LLM is not consulted, [translate] behaves as one pass over
    the chain. *)
Lemma translate_without_llm (e : env) (now : Q) (text : str) (s : t) :
  translation_cache s !! text = None ->
  use_large_model s = false \/ using_mt_fallback s = true ->
  provider_calls (translate e now text s).2
  = provider_calls s ++ (first_success e text (chain_without_llm s)).2
  /\ match (first_success e text (chain_without_llm s)).1 with
     | Some (p, r) =>
         (translate e now text s).1 = r
         /\ current_display_name (translate e now text s).2 = provider_name p
     | None => (translate e now text s).1 = placeholder text
     end.
Proof.
  intros Hmiss Hmode. unfold translate, chain_without_llm. rewrite Hmiss.
  destruct (use_large_model s) eqn:Hl.
  - destruct Hmode as [|Hfb]; [done|].
    unfold llm_attempt. rewrite Hfb.
    destruct (first_success e text fallback_chain)
      as [[[p result]|] calls]; cbn [fst snd].
    + destruct (mt_fallback_message_shown _); done.
    + destruct (translation_fail_warned _); done.
  - destruct (first_success e text mt_chain) as [[[p result]|] calls];
      cbn [fst snd]; [done|].
    destruct (translation_fail_warned _); done.
Qed.

(** X14.  In small-model mode and in MT-fallback state [translate] never calls
    the LLM: the calls it adds all go to providers of the MT chain. *)
Theorem no_llm_call_without_llm_mode (e : env) (now : Q) (text : str)
    (s : t) :
  use_large_model s = false \/ using_mt_fallback s = true ->
  exists calls,
    provider_calls (translate e now text s).2 = provider_calls s ++ calls
    /\ Forall (fun c => c.1 <> LLM) calls.
Proof.
  intros Hmode.
  destruct (translation_cache s !! text) as [cached|] eqn:Hc.
  - exists []. rewrite (AppSpec.translate_hit e now text cached s Hc).
    by rewrite app_nil_r.
  - destruct (translate_without_llm e now text s Hc Hmode) as [-> _].
    eexists. split; [done|].
    eapply Forall_impl; [apply first_success_calls|].
    intros c Hin Hllm. cbn beta in Hin. rewrite Hllm in Hin.
    by apply (chain_without_llm_no_llm s).
Qed.

Lemma no_llm_call_without_llm_mode_witness :
  exists calls,
    provider_calls (translate all_down 0 (lit "hello") (fresh false)).2
    = [] ++ calls
    /\ Forall (fun c => c.1 <> LLM) calls.
Proof.
  apply (no_llm_call_without_llm_mode all_down 0 (lit "hello") (fresh false)).
  left. reflexivity.
Defined.

(** X15.  The first provider of the chain that answers decides: when the LLM
    is not consulted and the text is not cached, the result is the answer
    of the first provider that returns a non-empty string; the providers
    before it are each asked once, in order, and those after it are not
    asked. *)
Theorem first_answer_wins (e : env) (now : Q) (text r : str) (s : t)
    (p : provider) (pre post : list provider) :
  translation_cache s !! text = None ->
  use_large_model s = false \/ using_mt_fallback s = true ->
  chain_without_llm s = pre ++ p :: post ->
  (forall q, q ∈ pre -> failed (mt_reply e q text)) ->
  mt_reply e p text = Text r -> r <> [] ->
  (translate e now text s).1 = r
  /\ provider_calls (translate e now text s).2
     = provider_calls s ++ ((fun q => (q, text)) <$> (pre ++ [p]))
  /\ current_display_name (translate e now text s).2 = provider_name p.
Proof.
  intros Hmiss Hmode Hchain Hpre Hp Hr.
  destruct (translate_without_llm e now text s Hmiss Hmode) as [Hc Hres].
  rewrite Hchain, (first_success_stops e text r p pre post Hpre Hp Hr)
    in Hc, Hres.
  simpl in Hc, Hres. destruct Hres. done.
Qed.

Lemma first_answer_wins_witness :
  (translate google_only 0 (lit "hello") (fresh false)).1 = lit "hi"
  /\ provider_calls (translate google_only 0 (lit "hello") (fresh false)).2
     = [(DeepL, lit "hello"); (Google, lit "hello")]
  /\ current_display_name
       (translate google_only 0 (lit "hello") (fresh false)).2
     = lit "Google".
Proof.
  apply (first_answer_wins google_only 0 (lit "hello") (lit "hi")
           (fresh false) Google [DeepL]
           [Baidu; Youdao; Yandex; LibreTranslate; Caiyun; Niutrans]).
  - reflexivity.
  - left. reflexivity.
  - reflexivity.
  - intros q Hq. apply list_elem_of_singleton in Hq as ->. exact I.
  - reflexivity.
  - discriminate.
Defined.

(** X16.  [translate] never leaves MT-fallback state, and in normal
    large-model state it enters it exactly when the LLM call raises
    (a rejected or empty answer does not switch). *)
Theorem fallback_entered_only_on_exception (e : env) (now : Q)
    (text : str) (s : t) :
  (using_mt_fallback s = true ->
   using_mt_fallback (translate e now text s).2 = true)
  /\ (translation_cache s !! text = None ->
      use_large_model s = true -> using_mt_fallback s = false ->
      using_mt_fallback (translate e now text s).2
      = match llm_reply e text (context_for s) with
        | Raises _ => true
        | _ => false
        end).
Proof.
  split.
  - intros Hfb. unfold translate.
    destruct (translation_cache s !! text); [done|].
    destruct (use_large_model s).
    + unfold llm_attempt. rewrite Hfb.
      destruct (first_success e text fallback_chain)
        as [[[p result]|] calls]; cbn [snd].
      * destruct (mt_fallback_message_shown _); done.
      * destruct (translation_fail_warned _); done.
    + destruct (first_success e text mt_chain) as [[[p result]|] calls];
        cbn [snd]; [done|]. destruct (translation_fail_warned _); done.
  - intros Hmiss Hl Hfb. unfold translate, llm_attempt, context_for.
    rewrite Hmiss, Hl, Hfb.
    destruct (llm_reply e text _) as [r0| |timed_out].
    + destruct (if truthy r0 then _ else _) as [[|c r']|].
      * cbn [snd]. destruct (translation_fail_warned _); simpl; done.
      * destruct (fix_mixed_llm_output e (c :: r')) as [fixed calls].
        destruct (if negb (is_llm_output_sane fixed text) then _ else _)
          as [[|d f']|].
        -- cbn [snd]. destruct (translation_fail_warned _); simpl; done.
        -- simpl. done.
        -- destruct (first_success e text fallback_chain)
             as [[[p result]|] calls']; cbn [snd].
           ++ destruct (mt_fallback_message_shown _); simpl; done.
           ++ destruct (translation_fail_warned _); simpl; done.
      * destruct (first_success e text fallback_chain)
          as [[[p result]|] calls']; cbn [snd].
        -- destruct (mt_fallback_message_shown _); simpl; done.
        -- destruct (translation_fail_warned _); simpl; done.
    + destruct (first_success e text fallback_chain)
        as [[[p result]|] calls']; cbn [snd].
      * destruct (mt_fallback_message_shown _); simpl; done.
      * destruct (translation_fail_warned _); simpl; done.
    + destruct (first_success e text fallback_chain)
        as [[[p result]|] calls']; cbn [snd].
      * simpl. done.
      * destruct (translation_fail_warned _); simpl; done.
Qed.

Lemma fallback_entered_only_on_exception_witness :
  using_mt_fallback (translate all_down 0 (lit "hello") (fresh true)).2
  = true.
Proof.
  apply (proj2 (fallback_entered_only_on_exception all_down 0 (lit "hello")
                  (fresh true))); reflexivity.
Defined.

(** X17.  An LLM answer that fails the sanity check is treated exactly like no
    answer: result and final state are those of the same call with the
    LLM returning [None]. *)
Theorem insane_answer_is_no_answer (e : env) (now : Q) (text : str)
    (s : t) :
  (forall context, exists r,
      llm_reply e text context = Text r /\ r <> []
      /\ is_llm_output_sane r text = false) ->
  translate e now text s = translate (silence_llm e) now text s.
Proof.
  intros H. unfold translate.
  destruct (translation_cache s !! text); [done|].
  destruct (use_large_model s); [|done].
  assert (llm_attempt e now text s = llm_attempt (silence_llm e) now text s)
    as ->; [|done].
  unfold llm_attempt. destruct (using_mt_fallback s); [done|].
  match goal with |- context [llm_reply e text ?c] =>
    destruct (H c) as (r & -> & Hr & Hs) end.
  cbn [llm_reply silence_llm].
  destruct r as [|c r]; [done|]. cbn [truthy]. by rewrite Hs.
Qed.

Lemma insane_answer_is_no_answer_witness :
  translate babbling 0 [23398; 26657]%N (fresh true)
  = translate (silence_llm babbling) 0 [23398; 26657]%N (fresh true).
Proof.
  apply (insane_answer_is_no_answer babbling 0 [23398; 26657]%N (fresh true)).
  intros context. eexists. split; [reflexivity|]. split; [discriminate|].
  vm_compute. reflexivity.
Defined.

(** X18.  An empty string from the LLM is neither an answer nor [None]: the
    MT chain is not tried, only the LLM has been called, and the
    placeholder is returned and cached. *)
Theorem empty_llm_answer_skips_mt (e : env) (now : Q) (text : str) (s : t) :
  translation_cache s !! text = None ->
  use_large_model s = true -> using_mt_fallback s = false ->
  llm_reply e text (context_for s) = Text [] ->
  (translate e now text s).1 = placeholder text
  /\ provider_calls (translate e now text s).2
     = provider_calls s ++ [(LLM, text)]
  /\ translation_cache (translate e now text s).2 !! text
     = Some (placeholder text).
Proof.
  intros Hmiss Hl Hfb He.
  unfold translate, llm_attempt. fold (context_for s).
  rewrite Hmiss, Hl, Hfb, He. cbn [truthy].
  destruct (translation_fail_warned _); cbn [negb fst snd];
    (split; [done|]; split; [done|]; apply lookup_insert_eq).
Qed.

Lemma empty_llm_answer_skips_mt_witness :
  (translate mute_llm 0 (lit "hello") (fresh true)).1
  = placeholder (lit "hello")
  /\ provider_calls (translate mute_llm 0 (lit "hello") (fresh true)).2
     = [] ++ [(LLM, lit "hello")]
  /\ translation_cache (translate mute_llm 0 (lit "hello") (fresh true)).2
       !! lit "hello"
     = Some (placeholder (lit "hello")).
Proof.
  apply (empty_llm_answer_skips_mt mute_llm 0 (lit "hello") (fresh true));
    reflexivity.
Defined.

(** X19.  What the sanity check accepts is not blank, and is no longer than
    2000 characters or 8 times the stripped source, whichever is more,
    when the source is not blank. *)
Theorem sane_output_shape (result source_text : str) :
  is_llm_output_sane result source_text = true ->
  strip result <> []
  /\ (strip source_text <> [] ->
      length (strip result) <= max 2000 (8 * length (strip source_text))).
Proof.
  unfold is_llm_output_sane.
  destruct (negb (truthy result)); [done|].
  destruct (strip result) as [|c r] eqn:E; [done|]. cbn [truthy negb].
  destruct ((0 <? _) && _) eqn:L; [done|]. intros _. split; [done|].
  intros Hs. destruct source_text as [|d src]; [done|].
  cbn [truthy] in L.
  apply andb_false_iff in L as [L|L].
  - apply Nat.ltb_ge in L. destruct (strip (d :: src)); [done|].
    simpl in L. lia.
  - apply Nat.ltb_ge in L. lia.
Qed.

Lemma sane_output_shape_witness :
  strip (lit " school ") <> []
  /\ (strip [23398; 26657]%N <> [] ->
      length (strip (lit " school "))
      <= max 2000 (8 * length (strip [23398; 26657]%N))).
Proof.
  apply (sane_output_shape (lit " school ") [23398; 26657]%N).
  vm_compute. reflexivity.
Defined.

(** X20.  A status message is reported as active at every moment before its
    expiry, right after it was added. *)
Theorem status_message_active_until_expiry (now later duration : Q)
    (text : str) (good : bool) (s : t) :
  (later < now + duration)%Q ->
  (text, good)
  ∈ (get_active_status_messages later
       (add_status_message now text duration good s)).1.
Proof.
  intros H. unfold get_active_status_messages, add_status_message.
  cbn [fst status_messages set_status].
  apply list_elem_of_fmap.
  exists (text, (now + duration)%Q, good). split; [done|].
  apply list_elem_of_filter. split.
  - cbn [fst snd]. unfold Qltb.
    destruct (Qle_bool (now + duration) later) eqn:E; [|done].
    apply Qle_bool_iff in E. lra.
  - set (msgs := status_messages s ++ _).
    assert (Hlast : last msgs = Some (text, (now + duration)%Q, good))
      by apply last_snoc.
    assert (Hn : length msgs - 6 < length msgs).
    { unfold msgs. rewrite length_app. simpl. lia. }
    apply list_elem_of_lookup. exists (length msgs - 1 - (length msgs - 6)).
    rewrite lookup_drop.
    replace (length msgs - 6 + (length msgs - 1 - (length msgs - 6)))
      with (length msgs - 1) by lia.
    rewrite <- Hlast, last_lookup. f_equal. lia.
Qed.

Lemma status_message_active_until_expiry_witness :
  (lit "API Error", false)
  ∈ (get_active_status_messages 9
       (add_status_message 0 (lit "API Error") 10 false (fresh true))).1.
Proof.
  apply (status_message_active_until_expiry 0 9 10). reflexivity.
Defined.

End AppMore.

(** ** The translation worker: word counters and session log *)
Module WorkerSpec.
Import Py PyFacts App Worker.

Lemma account_translates (e : env) (ok : bool) (now : Q) (text : str)
    (raw : option str) (w : t) :
  (account e ok now text raw w).1 = (translate e now text (app w)).1
  /\ app (account e ok now text raw w).2 = (translate e now text (app w)).2.
Proof.
  unfold account. destruct (translate e now text (app w)) as [tr a].
  destruct (_ && _ && _); [|done].
  destruct (session_output_enabled w); [|done].
  cbn [fst snd]. destruct (10 <=? _); [|done].
  unfold flush_session_output. cbn [session_output_buffer].
  destruct (negb _); [done|]. destruct ok; done.
Qed.

Lemma account_keeps_cache e ok now text raw w k v :
  translation_cache (app w) !! k = Some v ->
  translation_cache (app (account e ok now text raw w).2) !! k = Some v.
Proof.
  intros H. destruct (account_translates e ok now text raw w) as [_ ->].
  by apply AppSpec.translate_keeps_cache.
Qed.

Lemma worker_run_keeps_cache items k v : forall w,
  translation_cache (app w) !! k = Some v ->
  translation_cache (app (run items w)) !! k = Some v.
Proof.
  induction items as [|[[[[e ok] now] text] raw] items IH]; intros w H;
    simpl; [done|].
  by apply IH, account_keeps_cache.
Qed.

(** An item whose text is already cached changes nothing. *)
Lemma account_cached e ok now text raw w cached :
  translation_cache (app w) !! text = Some cached ->
  account e ok now text raw w = (cached, w).
Proof.
  intros H. unfold account.
  rewrite (AppSpec.translate_hit e now text cached (app w) H).
  rewrite bool_decide_eq_true_2 by (rewrite H; eauto).
  rewrite andb_false_r. by destruct w.
Qed.

(** X21.  A text that has been handled once is never counted or logged a
    second time: a later item with the same text returns the first
    translation and leaves word counters, session log and dispatcher as
    they are. *)
Theorem repeated_text_not_counted_again
    (e1 e2 : env) (ok1 ok2 : bool) (now1 now2 : Q) (text : str)
    (raw1 raw2 : option str)
    (between : list (env * bool * Q * str * option str)) (w : t) :
  let first := account e1 ok1 now1 text raw1 w in
  let later := run between first.2 in
  account e2 ok2 now2 text raw2 later = (first.1, later).
Proof.
  intros first later. apply account_cached. apply worker_run_keeps_cache.
  unfold first.
  destruct (account_translates e1 ok1 now1 text raw1 w) as [-> ->].
  apply AppSpec.translate_result_cached.
Qed.

Lemma translate_placeholder (e : env) (now : Q) (text : str) (s : App.t) :
  translation_cache s !! text = None ->
  (forall context, failed (llm_reply e text context)) ->
  (forall p, failed (mt_reply e p text)) ->
  (translate e now text s).1 = placeholder text.
Proof.
  intros Hmiss Hllm Hmt. unfold translate. rewrite Hmiss.
  destruct (use_large_model s).
  - destruct (AppSpec.llm_attempt_failed e now text s Hllm)
      as (res & s' & ->).
    destruct res as [r|]; [done|].
    pose proof (AppSpec.first_success_all_failed e text fallback_chain Hmt)
      as F.
    destruct (first_success e text fallback_chain) as [res calls].
    simpl in F. subst res. done.
  - pose proof (AppSpec.first_success_all_failed e text mt_chain Hmt) as F.
    destruct (first_success e text mt_chain) as [res calls].
    simpl in F. subst res. done.
Qed.

(** X22.  A translation that failed is not counted: when every provider asked
    fails, the item changes neither the word counters nor the session
    log. *)
Theorem failed_translation_not_counted (e : env) (ok : bool) (now : Q)
    (text : str) (raw : option str) (w : t) :
  translation_cache (app w) !! text = None ->
  (forall context, failed (llm_reply e text context)) ->
  (forall p, failed (mt_reply e p text)) ->
  session_word_count_by_model (account e ok now text raw w).2
  = session_word_count_by_model w
  /\ session_output_buffer (account e ok now text raw w).2
     = session_output_buffer w
  /\ session_file (account e ok now text raw w).2 = session_file w.
Proof.
  intros Hmiss Hllm Hmt.
  pose proof (translate_placeholder e now text (app w) Hmiss Hllm Hmt) as H.
  unfold account.
  destruct (translate e now text (app w)) as [tr a]. simpl in H. subst tr.
  unfold placeholder.
  change (startswith (lit "Translation Failed: " ++ take 15 text)
            (lit "Translation Failed")) with true.
  cbn [negb]. rewrite andb_false_r. done.
Qed.

Lemma failed_translation_not_counted_witness :
  let w := fresh (App.fresh true) true in
  session_word_count_by_model
    (account all_down true 0 (lit "hello") None w).2 = ∅
  /\ session_output_buffer
       (account all_down true 0 (lit "hello") None w).2 = []
  /\ session_file (account all_down true 0 (lit "hello") None w).2 = [].
Proof.
  intros w.
  apply (failed_translation_not_counted all_down true 0 (lit "hello")
           None w).
  - reflexivity.
  - intros context. exact I.
  - intros p. exact I.
Defined.

(** One item only appends to the session log, leaves the session file a
    prefix of the log, and lowers no word counter. *)
Lemma account_monotone e ok now text raw w :
  session_file w `prefix_of` session_output_buffer w ->
  session_output_buffer w
    `prefix_of` session_output_buffer (account e ok now text raw w).2
  /\ session_file (account e ok now text raw w).2
       `prefix_of` session_output_buffer (account e ok now text raw w).2
  /\ forall m,
       default 0 (session_word_count_by_model w !! m)
       <= default 0
            (session_word_count_by_model (account e ok now text raw w).2 !! m).
Proof.
  intros Hf. unfold account.
  destruct (translate e now text (app w)) as [tr a].
  destruct (_ && _ && _); [|done].
  assert (Hcount : forall m,
    default 0 (session_word_count_by_model w !! m)
    <= default 0
         (<[current_display_name a :=
              default 0 (session_word_count_by_model w
                         !! current_display_name a) + count_words text]>
            (session_word_count_by_model w) !! m)).
  { intros m. destruct (decide (current_display_name a = m)) as [<-|Hne].
    - rewrite lookup_insert_eq. simpl. lia.
    - by rewrite lookup_insert_ne. }
  destruct (session_output_enabled w); [|done].
  cbn [fst snd]. destruct (10 <=? _).
  - unfold flush_session_output. cbn [session_output_buffer].
    destruct (negb _); cbn [session_output_buffer session_file
      session_word_count_by_model].
    + split; [by apply prefix_app_r|]. split; [|done].
      by apply prefix_app_r.
    + destruct ok; cbn [session_output_buffer session_file
        session_word_count_by_model].
      * split; [by apply prefix_app_r|]. done.
      * split; [by apply prefix_app_r|]. split; [|done].
        by apply prefix_app_r.
  - cbn [session_output_buffer session_file session_word_count_by_model].
    split; [by apply prefix_app_r|]. split; [|done]. by apply prefix_app_r.
Qed.

(** X23.  The session log is append-only and the session file never runs ahead
    of it: over any series of items the log only grows at its end, the
    file holds a prefix of the log, and no word counter decreases. *)
Theorem session_accounting_monotone
    (items : list (env * bool * Q * str * option str)) (w : t) :
  session_file w `prefix_of` session_output_buffer w ->
  session_output_buffer w `prefix_of` session_output_buffer (run items w)
  /\ session_file (run items w) `prefix_of` session_output_buffer (run items w)
  /\ forall m,
       default 0 (session_word_count_by_model w !! m)
       <= default 0 (session_word_count_by_model (run items w) !! m).
Proof.
  revert w.
  induction items as [|[[[[e ok] now] text] raw] items IH]; intros w Hf;
    simpl; [done|].
  destruct (account_monotone e ok now text raw w Hf) as (A1 & A2 & A3).
  destruct (IH _ A2) as (I1 & I2 & I3).
  split; [by etrans|]. split; [done|].
  intros m. etrans; [apply A3 | apply I3].
Qed.

Lemma session_accounting_monotone_witness :
  let w := fresh (App.fresh false) true in
  let items := [(google_only, true, 0%Q, lit "hello", None)] in
  session_output_buffer w `prefix_of` session_output_buffer (run items w)
  /\ session_file (run items w) `prefix_of` session_output_buffer (run items w)
  /\ forall m,
       default 0 (session_word_count_by_model w !! m)
       <= default 0 (session_word_count_by_model (run items w) !! m).
Proof.
  intros w items. apply (session_accounting_monotone items w). done.
Defined.

End WorkerSpec.

(** ** The display stack and the duplicate filters *)
Module DisplayMore.
Import Py PyFacts PyMore Display.

Lemma pop_overflow_short now (n : nat) : forall stack recent,
  length stack <= n + 2 ->
  length (pop_overflow now n stack recent).1 <= 2.
Proof.
  induction n as [|n IH]; intros stack recent H; simpl; [lia|].
  destruct (2 <? length stack) eqn:E; [|by apply Nat.ltb_ge in E].
  destruct stack as [|x stack]; [simpl; lia|].
  apply IH. simpl in H. lia.
Qed.

Section Stack.
Context (lower : str -> str).

Lemma ui_item_stack now now' text s :
  length (display_stack s) <= 2 ->
  length (display_stack (ui_item lower now now' text s)) <= 2.
Proof.
  intros H. unfold ui_item.
  set (sentence := if truthy text then strip text else []).
  destruct (negb (truthy sentence)); [done|].
  assert (Hs : display_stack
                 (translation_similar_to_any lower now' sentence s).2
               = display_stack s).
  { unfold translation_similar_to_any. by destruct (negb _). }
  destruct (translation_similar_to_any lower now' sentence s)
    as [similar s'].
  simpl in Hs. destruct similar; [by rewrite Hs|].
  pose proof (pop_overflow_short now
                (length (display_stack s' ++ [sentence]))
                (display_stack s' ++ [sentence])
                (recent_translations s')) as P.
  destruct (pop_overflow now _ _ _) as [stack recent]. simpl.
  apply P. lia.
Qed.

Lemma step_stack o s :
  length (display_stack s) <= 2 ->
  length (display_stack (step lower o s)) <= 2.
Proof.
  destruct o as [now now' text|now text|now text]; simpl.
  - apply ui_item_stack.
  - unfold source_window_prune. by destruct (_ || _).
  - done.
Qed.

(** X24.  The display stack never holds more than 2 translations. *)
Theorem display_stack_bounded (ops : list op) :
  length (display_stack (run lower ops init)) <= 2.
Proof.
  unfold run.
  assert (H : forall s, length (display_stack s) <= 2 ->
    length (display_stack (foldl (fun s o => step lower o s) s ops)) <= 2).
  { induction ops as [|o ops IH]; intros s Hs; simpl; [done|].
    by apply IH, step_stack. }
  apply H. simpl. lia.
Qed.

(** X25.  A sentence that is already on the display stack, or that left it
    less than 12 s ago, is not shown again: the stack stays as it is. *)
Theorem shown_sentence_suppressed (now now' : Q) (text : str) (s : t) :
  strip text <> [] ->
  strip text ∈ display_stack s
  \/ (exists ts, (strip text, ts) ∈ recent_translations s
                 /\ (now' - ts < 12)%Q) ->
  display_stack (ui_item lower now now' text s) = display_stack s
  /\ last_translation_time (ui_item lower now now' text s)
     = last_translation_time s.
Proof.
  intros Hne Hin. unfold ui_item.
  assert (truthy text = true) as -> by (destruct text; done).
  assert (truthy (strip text) = true) as -> by by apply truthy_true.
  cbn [negb]. unfold translation_similar_to_any.
  rewrite strip_idem.
  assert (truthy (strip text) = true) as -> by by apply truthy_true.
  cbn [negb].
  match goal with |- context [existsb ?f ?l] =>
    assert (Hex : existsb f l = true) end.
  { apply existsb_exists. exists (strip text). split.
    - apply list_elem_of_In, elem_of_app.
      destruct Hin as [Hin | (ts & Hin & Hts)]; [by left|].
      right. apply list_elem_of_fmap. exists (strip text, ts).
      split; [done|]. apply list_elem_of_filter. split; [|done].
      cbn [snd]. unfold Qltb.
      destruct (Qle_bool 12 (now' - ts)) eqn:E; [|done].
      apply Qle_bool_iff in E. lra.
    - unfold similar_to. rewrite strip_idem.
      assert (truthy (strip text) = true) as -> by by apply truthy_true.
      cbn [negb orb]. by rewrite eqb_refl. }
  rewrite Hex. done.
Qed.

End Stack.

Lemma shown_sentence_suppressed_witness :
  let s := mk [lit "Hello"; lit "world"] [] [] [] 5 in
  display_stack (ui_item ascii_lower 7 7 (lit " world ") s) = display_stack s
  /\ last_translation_time (ui_item ascii_lower 7 7 (lit " world ") s)
     = last_translation_time s.
Proof.
  intros s. apply (shown_sentence_suppressed ascii_lower 7 7 (lit " world ") s).
  - vm_compute. discriminate.
  - left. vm_compute. apply list_elem_of_In. right. left. reflexivity.
Defined.

Lemma texts_similar_refl (threshold : Z) (text : str) :
  texts_similar threshold text text = true.
Proof.
  unfold texts_similar. destruct (_ || _); [done|]. by rewrite eqb_refl.
Qed.

Section Window.
Context (lower : str -> str).

Lemma ui_item_sources now now' text s :
  recent_sources (ui_item lower now now' text s) = recent_sources s.
Proof.
  unfold ui_item.
  destruct (negb (truthy _)); [done|].
  assert (Hs : recent_sources
                 (translation_similar_to_any lower now'
                    (if truthy text then strip text else []) s).2
               = recent_sources s).
  { unfold translation_similar_to_any. by destruct (negb _). }
  destruct (translation_similar_to_any lower now' _ s) as [similar s'].
  simpl in Hs. destruct similar; [done|].
  by destruct (pop_overflow now _ _ _).
Qed.

Lemma young_kept (now later t : Q) :
  (later - now < 15)%Q -> (t <= later)%Q -> Qltb (t - now) 15 = true.
Proof.
  intros H1 H2. unfold Qltb.
  destruct (Qle_bool 15 (t - now)) eqn:E; [|done].
  apply Qle_bool_iff in E. lra.
Qed.

Lemma step_holds text now later k o s :
  (later - now < 15)%Q ->
  pruned_by later o ->
  (is_push o = true -> k < 14) ->
  holds text now k s ->
  holds text now (if is_push o then S k else k) (step lower o s).
Proof.
  intros Hlate Hp Hk (pre & post & Hs & Hlen).
  destruct o as [t t' x|t x|t x]; cbn [step is_push pruned_by] in *.
  - exists pre, post. by rewrite ui_item_sources.
  - unfold source_window_prune. destruct (_ || _); [by exists pre, post|].
    cbn [recent_sources]. rewrite Hs, filter_app, filter_cons_True
      by (cbn [snd]; by eapply young_kept).
    eexists _, _. split; [done|].
    etrans; [apply length_filter | done].
  - specialize (Hk eq_refl). unfold source_window_push.
    cbn [recent_sources]. rewrite Hs.
    replace ((pre ++ (text, now) :: post) ++ [(x, t)])
      with (pre ++ (text, now) :: (post ++ [(x, t)]))
      by (by rewrite <- app_assoc).
    assert (Hl : length (post ++ [(x, t)]) <= S k)
      by (rewrite length_app; simpl; lia).
    destruct (15 <? _).
    + rewrite drop_app_le by (rewrite length_app; simpl; lia).
      by eexists _, _.
    + by eexists _, _.
Qed.

Lemma run_holds text now later ops : forall k s,
  (later - now < 15)%Q ->
  Forall (pruned_by later) ops ->
  k + length (filter (fun o => is_push o = true) ops) <= 14 ->
  holds text now k s ->
  holds text now 14 (run lower ops s).
Proof.
  unfold run.
  induction ops as [|o ops IH]; intros k s Hlate Hp Hk H; simpl.
  - destruct H as (pre & post & Hs & Hlen). exists pre, post.
    split; [done|]. simpl in Hk. lia.
  - apply Forall_cons in Hp as [Hp Hps].
    apply (IH (if is_push o then S k else k)); [done|done| |].
    + destruct (is_push o) eqn:E.
      * rewrite filter_cons_True in Hk by done. simpl in Hk. lia.
      * rewrite filter_cons_False in Hk by (by rewrite E). done.
    + apply (step_holds text now later); [done|done| |done].
      intros E. rewrite filter_cons_True in Hk by done. simpl in Hk. lia.
Qed.

Lemma holds_similar threshold text now later k s :
  strip text <> [] -> (later - now < 15)%Q ->
  holds text now k s ->
  (source_similar_to_any threshold later text s).1 = true.
Proof.
  intros Hne Hlate (pre & post & Hs & _). unfold source_similar_to_any.
  assert (Ht : truthy text = true) by (destruct text; done).
  rewrite Ht.
  assert (truthy (strip text) = true) as -> by by apply truthy_true.
  cbn [negb orb fst]. apply existsb_exists. exists (text, now). split.
  - apply list_elem_of_In, list_elem_of_filter. split.
    + cbn [snd]. apply (young_kept now later later); [done | apply Qle_refl].
    + rewrite Hs. apply elem_of_app. right. left.
  - cbn [fst]. by rewrite Ht, texts_similar_refl.
Qed.

(** X26.  A source handed to the translator stays recognised as a
    duplicate: as long as fewer than 15 further sources are pushed, and
    whatever is shown or tested meanwhile (the tests reading the clock
    no later than [later]), [_source_similar_to_any] of the same text
    answers [True] at any time [later] less than 15 s after the push,
    whatever the similarity threshold. *)
Theorem pushed_source_is_duplicate (threshold : Z) (now later : Q)
    (text : str) (s : t) (ops : list op) :
  strip text <> [] -> (later - now < 15)%Q ->
  length (filter (fun o => is_push o = true) ops) < 15 ->
  Forall (pruned_by later) ops ->
  (source_similar_to_any threshold later text
     (run lower ops (source_window_push now text s))).1 = true.
Proof.
  intros Hne Hlate Hn Hp.
  apply (holds_similar threshold text now later 14); [done|done|].
  apply (run_holds text now later ops 0); [done|done|simpl; lia|].
  unfold holds, source_window_push. cbn [recent_sources].
  destruct (15 <? _).
  - exists (drop (length (recent_sources s ++ [(text, now)]) - 15)
              (recent_sources s)), [].
    split; [|simpl; lia].
    rewrite drop_app_le by (rewrite length_app; simpl; lia). done.
  - exists (recent_sources s), []. split; [done | simpl; lia].
Qed.

End Window.

Lemma pushed_source_is_duplicate_witness :
  (source_similar_to_any 15 10 (lit "hello")
     (run ascii_lower
        [SourcePush 2 (lit "good morning"); SourcePrune 9 (lit "hello");
         UiItem 9 9 (lit "hi")]
        (source_window_push 0 (lit "hello") init))).1 = true.
Proof.
  apply (pushed_source_is_duplicate ascii_lower 15 0 10 (lit "hello") init).
  - vm_compute. discriminate.
  - reflexivity.
  - vm_compute. lia.
  - repeat constructor; vm_compute; discriminate.
Defined.

(** X27.  A text and a longer text that contains it (a grown subtitle) count
    as the same source exactly when the longer one has at most
    [threshold] more characters, in either order of the arguments. *)
Theorem grown_text_similar_within_threshold (threshold : Z)
    (pre a post : str) :
  a <> [] -> strip a = a -> strip (pre ++ a ++ post) = pre ++ a ++ post ->
  pre ++ post <> [] ->
  let b := pre ++ a ++ post in
  let verdict := (Z.of_nat (length pre + length post) <=? threshold)%Z in
  texts_similar threshold a b = verdict
  /\ texts_similar threshold b a = verdict.
Proof.
  intros Ha Hsa Hsb Hgrow b verdict.
  assert (Hlen : length b = length pre + length a + length post).
  { unfold b. rewrite !length_app. lia. }
  assert (Hpos : 0 < length pre + length post).
  { destruct pre, post; simpl; try lia. done. }
  assert (Hb : truthy b = true).
  { apply truthy_true. intros E. rewrite E in Hlen. simpl in Hlen.
    destruct a; [done | simpl in Hlen; lia]. }
  assert (Hne : eqb a b = false /\ eqb b a = false).
  { split; (destruct (eqb _ _) eqn:E; [|done]); apply eqb_true in E;
      rewrite E in Hlen; lia. }
  assert (Hta : truthy a = true) by by apply truthy_true.
  assert (Hv : (Z.of_nat (length b) - Z.of_nat (length a) <=? threshold)%Z
               = verdict).
  { unfold verdict. f_equal. lia. }
  change (strip b = b) in Hsb.
  unfold texts_similar. rewrite Hta, Hb, Hsa, Hsb.
  cbn [negb orb]. destruct Hne as [-> ->].
  split.
  - assert ((length a <=? length b) = true) as -> by (apply Nat.leb_le; lia).
    unfold b at 1. by rewrite contains_middle.
  - assert ((length b <=? length a) = false) as -> by (apply Nat.leb_gt; lia).
    unfold b at 1. by rewrite contains_middle.
Qed.

Lemma grown_text_similar_within_threshold_witness :
  texts_similar 15 (lit "good morning") (lit "good morning everyone") = true
  /\ texts_similar 15 (lit "good morning everyone") (lit "good morning")
     = true.
Proof.
  apply (grown_text_similar_within_threshold 15 [] (lit "good morning")
           (lit " everyone")).
  - discriminate.
  - vm_compute. reflexivity.
  - vm_compute. reflexivity.
  - discriminate.
Defined.

End DisplayMore.

(** ** The overlay overlap test *)
Module GateSpec.
Import Py Gate.
Local Open Scope Z_scope.

(** X28.  A significant overlap is an overlap: for an overlay at least 30 px
    wide and high (and a non-negative inset), the gate only fires when
    the capture region and the overlay rectangle really intersect, so an
    overlay held clear of the region never pauses capture. *)
Theorem significant_overlap_is_overlap (reg : option region)
    (ox oy ow oh inset : Z) (min_fraction : float) :
  0 <= inset -> 30 <= ow -> 30 <= oh ->
  overlap_is_significant reg (Some (ox, oy, ow, oh)) inset min_fraction
  = true ->
  rects_overlap reg (Some (ox, oy, ow, oh)) = true.
Proof.
  intros Hi Hw Hh. destruct reg as [r|]; [|done].
  unfold overlap_is_significant, rects_overlap.
  set (margin := Z.min (Z.min inset (ow / 3)) (oh / 3)).
  pose proof (Z.mul_div_le ow 3 eq_refl) as Dw.
  pose proof (Z.mul_div_le oh 3 eq_refl) as Dh.
  assert (0 <= ow / 3) by (apply Z.div_pos; lia).
  assert (0 <= oh / 3) by (apply Z.div_pos; lia).
  assert (Hm0 : 0 <= margin) by (unfold margin; lia).
  assert (Hmw : 3 * margin <= ow) by (unfold margin; lia).
  assert (Hmh : 3 * margin <= oh) by (unfold margin; lia).
  cbv zeta.
  destruct (_ || _ || _ || _) eqn:E; [done|]. intros _.
  apply negb_true_iff.
  repeat (apply orb_false_elim in E as [E ?]).
  repeat match goal with
  | H : (_ <=? _) = false |- _ => apply Z.leb_gt in H
  end.
  repeat (apply orb_false_intro); apply Z.leb_gt; lia.
Qed.

(** Spec scenario 6: region (100, 500, 800, 120), overlay
    (200, 560, 400, 100). *)
Lemma significant_overlap_is_overlap_witness :
  rects_overlap (Some (mkRegion 100 500 800 120))
    (Some (200, 560, 400, 100)) = true.
Proof.
  apply (significant_overlap_is_overlap (Some (mkRegion 100 500 800 120))
           200 560 400 100 30 f0_10); [lia | lia | lia |].
  vm_compute. reflexivity.
Defined.

End GateSpec.

(** ** Line wrapping *)
Module WrapSpec.
Import Py PyFacts PyMore Re ReFacts Wrap.

Lemma runs_from_class (cls : N -> bool) (w s : str) : forall cur,
  Forall (fun c => cls c = true) w ->
  runs_from cls cur (w ++ s) = runs_from cls (cur ++ w) s.
Proof.
  induction w as [|c w IH]; intros cur H; simpl.
  - by rewrite app_nil_r.
  - inversion H as [|? ? Hc Hw]; subst. rewrite Hc.
    rewrite IH by done. by rewrite <- app_assoc.
Qed.

(** Every piece returned by [split] is a word. *)
Lemma runs_from_words (s : str) : forall cur,
  Forall (fun c => is_nonspace c = true) cur ->
  Forall word (runs_from is_nonspace cur s).
Proof.
  induction s as [|c s IH]; intros cur Hcur; simpl.
  - destruct cur; [constructor|]. constructor; [|constructor]. by split.
  - destruct (is_nonspace c) eqn:E.
    + apply IH. apply Forall_app. split; [done|]. by constructor.
    + destruct cur as [|d cur]; [by apply IH|].
      constructor; [by split|]. by apply IH.
Qed.

Lemma split_words (s : str) : Forall word (split s).
Proof. by apply runs_from_words. Qed.

Lemma split_word (w : str) : word w -> split w = [w].
Proof.
  intros [Hne Hw]. unfold split, runs.
  rewrite <- (app_nil_r w) at 1. rewrite runs_from_class by done.
  simpl. by destruct w.
Qed.

Lemma split_word_space (w rest : str) :
  word w -> split (w ++ lit " " ++ rest) = w :: split rest.
Proof.
  intros [Hne Hw]. unfold split, runs.
  rewrite runs_from_class by done. simpl. by destruct w.
Qed.

(** Splitting a line of words joined by single spaces gives the words
    back. *)
Lemma split_join (ws : list str) :
  Forall word ws -> split (join (lit " ") ws) = ws.
Proof.
  induction 1 as [|w ws Hw Hws IH]; [done|].
  destruct ws as [|w' ws]; [by apply split_word|].
  change (join (lit " ") (w :: w' :: ws))
    with (w ++ lit " " ++ join (lit " ") (w' :: ws)).
  rewrite split_word_space by done. by rewrite IH.
Qed.

Lemma wrap_step_placed target st w :
  Forall word st.1.2 ->
  placed (wrap_step target st w) = placed st ++ [w]
  /\ (Forall word [w] -> Forall word (wrap_step target st w).1.2).
Proof.
  destruct st as [[lines cur] len]. intros Hcur. unfold wrap_step, placed.
  destruct (_ || _); cbn [fst snd].
  - split; [by rewrite app_assoc|]. intros Hw. by apply Forall_app.
  - split; [|done].
    rewrite fmap_app, concat_app.
    change (split <$> [join (lit " ") cur]) with [split (join (lit " ") cur)].
    cbn [concat]. rewrite split_join by done.
    by rewrite app_nil_r, <- app_assoc.
Qed.

Lemma wrap_loop_placed target ws : forall st,
  Forall word st.1.2 -> Forall word ws ->
  placed (foldl (wrap_step target) st ws) = placed st ++ ws
  /\ Forall word (foldl (wrap_step target) st ws).1.2.
Proof.
  induction ws as [|w ws IH]; intros st Hcur Hws; simpl.
  - by rewrite app_nil_r.
  - inversion Hws as [|? ? Hw Hrest]; subst.
    destruct (wrap_step_placed target st w Hcur) as [P1 P2].
    destruct (IH (wrap_step target st w)) as [I1 I2];
      [apply P2; by constructor | done |].
    split; [|done]. rewrite I1, P1. by rewrite <- app_assoc.
Qed.

(** X29.  Wrapping loses, adds and reorders no word: the words of the lines,
    read in order, are the words of the text. *)
Theorem wrap_keeps_words (text : str) (target_length : Z) :
  concat (split <$> wrap_text_by_length text target_length) = split text.
Proof.
  unfold wrap_text_by_length.
  destruct (negb (truthy text) || (target_length <=? 0)%Z).
  { destruct text; simpl; [done|]. by rewrite app_nil_r. }
  destruct (split text) as [|w0 ws0] eqn:Ew.
  { simpl. by rewrite Ew. }
  cbn [truthy_items negb]. rewrite <- Ew.
  destruct (wrap_loop_placed target_length (split text) ([], [], 0%Z))
    as [P1 P2]; [constructor | apply split_words |].
  destruct (foldl _ _ _) as [[lines cur] len]. unfold placed in P1.
  cbn [fst snd] in P1, P2. simpl in P1. rewrite <- P1.
  destruct cur as [|c cur]; cbn [truthy_items].
  - rewrite app_nil_r in *.
    destruct lines as [|l lines]; cbn [truthy_items]; [|done].
    simpl in P1. rewrite Ew in P1. done.
  - assert (truthy_items (lines ++ [join (lit " ") (c :: cur)]) = true) as ->
      by (by destruct lines).
    rewrite fmap_app, concat_app.
    change (split <$> [join (lit " ") (c :: cur)])
      with [split (join (lit " ") (c :: cur))].
    cbn [concat]. by rewrite split_join, app_nil_r.
Qed.

Lemma runs_from_nil (cls : N -> bool) (s : str) : forall cur,
  runs_from cls cur s = [] -> Forall (fun c => cls c = false) s.
Proof.
  induction s as [|c s IH]; intros cur; simpl; [constructor|].
  destruct (cls c) eqn:E.
  - intros H. exfalso. clear IH.
    assert (G : forall cur', cur' <> [] -> runs_from cls cur' s <> []).
    { clear. induction s as [|d s IH]; intros cur' Hc; simpl.
      - by destruct cur'.
      - destruct (cls d); [apply IH; by destruct cur'|]. by destruct cur'. }
    apply (G (cur ++ [c])); [by destruct cur | done].
  - destruct cur; [|done]. intros H. constructor; [done | by eapply IH].
Qed.

Lemma split_nil_blank (text : str) : split text = [] -> blank text.
Proof.
  intros H. apply runs_from_nil in H.
  eapply Forall_impl; [exact H|]. intros c Hc. simpl in Hc.
  unfold is_nonspace in Hc. by apply negb_false_iff in Hc.
Qed.

Section Lines.
Context (target : Z) (words : list str).

Lemma wrap_step_filling st w :
  w ∈ words -> filling target words st -> filling target words (wrap_step target st w).
Proof.
  destruct st as [[lines cur] len]. intros Hw (Hl & Hc & Hlen & Hfit). unfold fits in *.
  cbn [fst snd] in *. unfold wrap_step.
  assert (truthy_items cur = true) as -> by (by destruct cur).
  cbn [negb]. rewrite orb_false_r.
  destruct (_ <=? _)%Z eqn:E; unfold filling, fits; cbn [fst snd].
  - apply Z.leb_le in E.
    assert (Hj : Z.of_nat (length (join (lit " ") (cur ++ [w])))
                 = (len + (1 + Z.of_nat (length w)))%Z).
    { rewrite join_snoc by done. rewrite !length_app.
      change (length (lit " ")) with 1%nat. lia. }
    split; [done|]. split; [by destruct cur|]. split; [by rewrite Hj|].
    left. lia.
  - split; [apply Forall_app; split; [done | by constructor]|].
    split; [done|]. split; [done|]. by right.
Qed.

Lemma wrap_loop_filling ws : forall st,
  Forall (fun w => w ∈ words) ws -> filling target words st ->
  filling target words (foldl (wrap_step target) st ws).
Proof.
  induction ws as [|w ws IH]; intros st Hws Hst; simpl; [done|].
  inversion Hws; subst. apply IH; [done|]. by apply wrap_step_filling.
Qed.

End Lines.

(** X30.  No line is longer than the target unless it is a single word that
    is too long by itself: every line returned for a non-blank text and a
    positive target has at most [target_length] characters or is one of
    the words of the text. *)
Theorem wrap_lines_fit (text line : str) (target_length : Z) :
  ~ blank text -> (0 < target_length)%Z ->
  line ∈ wrap_text_by_length text target_length ->
  (Z.of_nat (length line) <= target_length)%Z \/ line ∈ split text.
Proof.
  intros Hnb Hpos. unfold wrap_text_by_length.
  assert (truthy text = true) as ->.
  { destruct text; [|done]. exfalso. apply Hnb. constructor. }
  assert ((target_length <=? 0)%Z = false) as -> by (apply Z.leb_gt; lia).
  cbn [negb orb].
  destruct (split text) as [|w0 ws] eqn:Ew.
  { exfalso. by apply Hnb, split_nil_blank. }
  cbn [truthy_items negb foldl].
  assert (H0 : filling target_length (w0 :: ws)
                 (wrap_step target_length ([], [], 0%Z) w0)).
  { unfold wrap_step. cbn [truthy_items negb]. rewrite orb_true_r.
    unfold filling. cbn [fst snd app].
    split; [constructor|]. split; [done|]. split; [simpl; lia|].
    right. simpl. left. }
  pose proof (wrap_loop_filling target_length (w0 :: ws) ws _
                ltac:(apply Forall_forall; intros; by right) H0)
    as (Hl & Hc & _ & Hfit).
  destruct (foldl _ _ ws) as [[lines cur] len]. cbn [fst snd] in *.
  assert (truthy_items cur = true) as -> by (by destruct cur).
  assert (truthy_items (lines ++ [join (lit " ") cur]) = true) as ->
    by (by destruct lines).
  intros Hin. apply elem_of_app in Hin as [Hin|Hin].
  - rewrite Forall_forall in Hl. by apply Hl.
  - apply list_elem_of_singleton in Hin as ->. done.
Qed.

Lemma wrap_lines_fit_witness :
  (Z.of_nat (length (lit "the quick")) <= 10)%Z
  \/ lit "the quick" ∈ split (lit "the quick brown fox").
Proof.
  apply (wrap_lines_fit (lit "the quick brown fox") (lit "the quick") 10).
  - intros H. inversion H. discriminate.
  - reflexivity.
  - vm_compute. left.
Defined.

End WrapSpec.
